(** * Conway's Game of Life on an 8x8 LED matrix (main.ino)

    A shallow embedding of the sketch: the [world] array, the neighbour
    counter, the three-case rule, [updateWorld] with its scratch buffer,
    the row-scanning display driver, the two interrupt handlers and the
    scheduler [loop].

    Conventions.
    - [int] values are modelled in [Z].  Every [int] computed by the sketch
      on in-bounds coordinates lies between -1 and 9, far inside the 16-bit
      range of the target, so no signed overflow is ever involved.
    - [unsigned long] arithmetic ([millis], [lastTime]) wraps modulo 2^32 and
      the wrap is written out.
    - An array access [a[i]] is defined for [0 <= i < length a] only; the
      embedding returns [None] for any other index, where C leaves the
      behaviour undefined.  All functions touching an array therefore live in
      the [option] monad. *)

From Stdlib Require Import ZArith List Bool Lia.
From stdpp Require Import base option list.

Open Scope Z_scope.

(** ** Constants and the world array *)

Definition ROWS : Z := 8.
Definition COLS : Z := 8.

(** [bool world[ROWS][COLS]], row-major. *)
Abbreviation grid := (list (list bool)).

(** Reading [a[i]]. *)
Definition index {A : Type} (a : list A) (i : Z) : option A :=
  if 0 <=? i then a !! Z.to_nat i else None.

(** Writing [a[i] = v]. *)
Definition store {A : Type} (a : list A) (i : Z) (v : A) : option (list A) :=
  if (0 <=? i) && (i <? Z.of_nat (length a))
  then Some (<[Z.to_nat i := v]> a)
  else None.

(** [world[y][x]] as an rvalue. *)
Definition world_get (w : grid) (y x : Z) : option bool :=
  line ← index w y; index line x.

(** [world[y][x] = v]. *)
Definition world_set (w : grid) (y x : Z) (v : bool) : option grid :=
  line ← index w y;
  line' ← store line x v;
  store w y line'.

(** A grid has the declared shape when it has [ROWS] lines of [COLS] cells. *)
Definition well_formed (w : grid) : Prop :=
  Z.of_nat (length w) = ROWS /\
  Forall (fun line => Z.of_nat (length line) = COLS) w.

Definition well_formedb (w : grid) : bool :=
  (Z.of_nat (length w) =? ROWS) &&
  forallb (fun line => Z.of_nat (length line) =? COLS) w.

(** [{ false }] initialiser of a [bool [ROWS][COLS]] array. *)
Definition all_false : grid :=
  repeat (repeat false (Z.to_nat COLS)) (Z.to_nat ROWS).

(** ** Counted loops *)

(** [n] iterations of [body], the loop variable starting at [i] and
    incremented after each one. *)
Fixpoint iter_from {S : Type} (n : nat) (i : Z)
    (body : Z -> S -> option S) (s : S) : option S :=
  match n with
  | O => Some s
  | Datatypes.S n' => s' ← body i s; iter_from n' (i + 1) body s'
  end.

(** [for (int i = lo; i < hi; ++i) body] *)
Definition for_lt {S : Type} (lo hi : Z) (body : Z -> S -> option S) (s : S)
    : option S :=
  iter_from (Z.to_nat (hi - lo)) lo body s.

(** [for (int i = lo; i <= hi; i++) body] *)
Definition for_le {S : Type} (lo hi : Z) (body : Z -> S -> option S) (s : S)
    : option S :=
  iter_from (Z.to_nat (hi + 1 - lo)) lo body s.

(** ** Neighbor counter *)

(** [i >= 0 ? i % n : n - 1]; C's [%] truncates, hence [Z.rem]. *)
Definition wrap (i n : Z) : Z :=
  if 0 <=? i then Z.rem i n else n - 1.

(** Conversion of a [bool] operand to [int] in [neighbors += world[y][x]]. *)
Definition bool_to_int (b : bool) : Z := if b then 1 else 0.

Definition countNeighbors (world : grid) (r c : Z) : option Z :=
  for_le (r - 1) (r + 1) (fun i neighbors =>
    for_le (c - 1) (c + 1) (fun j neighbors =>
      if (i =? r) && (j =? c) then Some neighbors
      else
        let y := wrap i ROWS in
        let x := wrap j COLS in
        cell ← world_get world y x;
        Some (neighbors + bool_to_int cell))
      neighbors)
    0.

(** The coordinates [(y, x)] at which [countNeighbors r c] indexes [world],
    in the order of the two loops. *)
Definition neighbor_accesses (r c : Z) : option (list (Z * Z)) :=
  for_le (r - 1) (r + 1) (fun i acc =>
    for_le (c - 1) (c + 1) (fun j acc =>
      if (i =? r) && (j =? c) then Some acc
      else Some (acc ++ [(wrap i ROWS, wrap j COLS)]))
      acc)
    [].

(** The eight coordinates the two loops visit, written out. *)
Definition wrapped_neighbors (r c : Z) : list (Z * Z) :=
  [ (wrap (r - 1) ROWS, wrap (c - 1) COLS);
    (wrap (r - 1) ROWS, wrap c COLS);
    (wrap (r - 1) ROWS, wrap (c + 1) COLS);
    (wrap r ROWS, wrap (c - 1) COLS);
    (wrap r ROWS, wrap (c + 1) COLS);
    (wrap (r + 1) ROWS, wrap (c - 1) COLS);
    (wrap (r + 1) ROWS, wrap c COLS);
    (wrap (r + 1) ROWS, wrap (c + 1) COLS) ].

(** Coordinates inside the declared bounds of [world]. *)
Definition in_bounds (p : Z * Z) : Prop :=
  0 <= fst p <= 7 /\ 0 <= snd p <= 7.

(** ** Rule engine *)

(** The [switch] of [updateWorld]: [case 2], [case 3], [default]. *)
Definition switch3 {A : Type} (n : Z) (case2 case3 default : A) : A :=
  if n =? 2 then case2 else if n =? 3 then case3 else default.

(** Next state of a cell whose current state is [cur] and which has [n]
    live neighbours, as the three cases assign it. *)
Definition next_state (n : Z) (cur : bool) : bool :=
  switch3 n cur true false.

(** The two arrays [updateWorld] works on. *)
Record frame : Type := Frame { f_world : grid; f_nextWorld : grid }.

(** First pair of loops: fill [nextWorld] from [world]. *)
Definition compute_cell (r c : Z) (st : frame) : option frame :=
  n ← countNeighbors (f_world st) r c;
  v ← switch3 n (world_get (f_world st) r c) (Some true) (Some false);
  nw ← world_set (f_nextWorld st) r c v;
  Some (Frame (f_world st) nw).

(** Second pair of loops: [world[r][c] = nextWorld[r][c]]. *)
Definition commit_cell (r c : Z) (st : frame) : option frame :=
  v ← world_get (f_nextWorld st) r c;
  w ← world_set (f_world st) r c v;
  Some (Frame w (f_nextWorld st)).

Definition compute_phase (st : frame) : option frame :=
  for_lt 0 ROWS (fun r st => for_lt 0 COLS (fun c st => compute_cell r c st) st) st.

Definition commit_phase (st : frame) : option frame :=
  for_lt 0 ROWS (fun r st => for_lt 0 COLS (fun c st => commit_cell r c st) st) st.

Definition updateWorld (world : grid) : option grid :=
  st1 ← compute_phase (Frame world all_false);
  st2 ← commit_phase st1;
  Some (f_world st2).

(** Cells the row-major scan has passed when it stands at [(r, c)]. *)
Definition scanned (r c y x : Z) : Prop :=
  (0 <= y < r /\ 0 <= x < COLS) \/ (y = r /\ 0 <= x < c).

(** The transition as a function of the old grid alone: the value
    [updateWorld] is meant to leave in [world[r][c]]. *)
Definition transition (w : grid) (r c : Z) : option bool :=
  n ← countNeighbors w r c;
  cur ← world_get w r c;
  Some (next_state n cur).

(** [k] successive calls of [updateWorld]. *)
Fixpoint generations (k : nat) (w : grid) : option grid :=
  match k with
  | O => Some w
  | Datatypes.S k' => w' ← updateWorld w; generations k' w'
  end.

(** ** Pins and the display driver *)

Inductive level : Type := LOW | HIGH.

(** The analog pin numbers [A0] .. [A7] come from the board's core headers,
    not from the sketch; they are a parameter of the development. *)
Class Board : Type := {
  A0 : Z; A1 : Z; A2 : Z; A3 : Z; A4 : Z; A5 : Z; A6 : Z; A7 : Z
}.

(** The numbering of the Arduino Mega 2560, the board whose external
    interrupts sit on pins 20 and 21. *)
Definition mega2560 : Board :=
  {| A0 := 54; A1 := 55; A2 := 56; A3 := 57;
     A4 := 58; A5 := 59; A6 := 60; A7 := 61 |}.

(** One call of [digitalWrite]. *)
Inductive event : Type := DigitalWrite (pin : Z) (v : level).

(** Output levels of the pins, by pin number. *)
Abbreviation pins := (Z -> level).

Definition digitalWrite (e : event) (p : pins) : pins :=
  match e with
  | DigitalWrite pin v => fun q => if q =? pin then v else p q
  end.

(** Pin levels after a sequence of writes. *)
Definition run (tr : list event) (p : pins) : pins :=
  fold_left (fun p e => digitalWrite e p) tr p.

Section Sketch.
Context {board : Board}.

Definition row : list Z := [0; 5; A7; 3; A0; A6; A1; A4].
Definition col : list Z := [4; A2; A3; 1; A5; 2; 6; 7].

(** The pin part of [setup]: columns HIGH, rows LOW.  [pinMode],
    [attachInterrupt] and [randomSeed] have no effect on the state modelled
    here. *)
Definition setup_pins (out : list event) : option (list event) :=
  for_lt 0 8 (fun i (out : list event) =>
    pc ← index col i;
    pr ← index row i;
    Some (out ++ [DigitalWrite pc HIGH; DigitalWrite pr LOW]))
    out.

(** Body of the fill loops of [setup]: [world[i][j] = (bool)(random(2))].
    [rnd k] is the value returned by the [k]-th call of [random]; the
    number of calls made so far is threaded with the grid. *)
Definition fill_cell (rnd : nat -> Z) (i j : Z) (st : nat * grid)
    : option (nat * grid) :=
  w ← world_set (snd st) i j (negb (rnd (fst st) =? 0));
  Some (Datatypes.S (fst st), w).

(** The fill loops of [setup], on the zero-initialised [world]. *)
Definition fill_world (rnd : nat -> Z) : option (nat * grid) :=
  for_lt 0 ROWS (fun i st =>
    for_lt 0 COLS (fun j st => fill_cell rnd i j st) st)
    (0%nat, all_false).

(** Body of the column loop of [dispWorld]. *)
Definition scan_cell (world : grid) (r c : Z) (out : list event)
    : option (list event) :=
  cell ← world_get world r c;
  pc ← index col c;
  let out := if (cell : bool) then out ++ [DigitalWrite pc LOW] else out in
  Some (out ++ [DigitalWrite pc HIGH]).

(** Body of the row loop of [dispWorld]. *)
Definition scan_row (world : grid) (r : Z) (out : list event)
    : option (list event) :=
  pr ← index row r;
  out ← for_lt 0 COLS (scan_cell world r) (out ++ [DigitalWrite pr HIGH]);
  Some (out ++ [DigitalWrite pr LOW]).

(** [dispWorld], appending its writes to those already made. *)
Definition dispWorld_from (world : grid) (out : list event)
    : option (list event) :=
  for_lt 0 ROWS (scan_row world) out.

(** The writes of one invocation of [dispWorld]. *)
Definition dispWorld (world : grid) : option (list event) :=
  dispWorld_from world [].

(** ** Global state, interrupt handlers and the scheduler *)

Record state : Type := State {
  world : grid;
  lastTime : Z;
  paused : bool;
  step : bool;
  out_pins : pins
}.

Definition togglePause (s : state) : state :=
  State (world s) (lastTime s) (negb (paused s)) (step s) (out_pins s).

Definition setStep (s : state) : state :=
  if paused s
  then State (world s) (lastTime s) (paused s) true (out_pins s)
  else s.

(** [setup], from the power-on levels [p] of the pins: the pin writes, then
    the random fill of the zero-initialised [world]. *)
Definition setup (rnd : nat -> Z) (p : pins) : option state :=
  tr ← setup_pins [];
  st ← fill_world rnd;
  Some (State (snd st) 0 false false (run tr p)).

(** [unsigned long] subtraction. *)
Definition ulong_sub (a b : Z) : Z := (a - b) mod 2 ^ 32.

(** One iteration of [loop]; [time] is the value returned by [millis].
    [delay] changes nothing in the state. *)
Definition loop (time : Z) (s : state) : option state :=
  s1 ← (if 1000 <=? ulong_sub time (lastTime s)
        then w ← updateWorld (world s);
             Some (State w time (paused s) (step s) (out_pins s))
        else Some s);
  tr ← dispWorld (world s1);
  Some (State (world s1) (lastTime s1) (paused s1) (step s1)
              (run tr (out_pins s1))).

(** ** Levels of the matrix lines *)

Definition rows_low (p : pins) : Prop := Forall (fun pr => p pr = LOW) row.
Definition cols_high (p : pins) : Prop := Forall (fun pc => p pc = HIGH) col.

(** Everything off: the configuration [setup] establishes. *)
Definition idle (p : pins) : Prop := rows_low p /\ cols_high p.

(** Pin levels with every column line HIGH and everything else LOW. *)
Definition lines_off : pins :=
  fun q => if existsb (Z.eqb q) col then HIGH else LOW.

(** The LED of cell [(r, c)] is lit: its row line is HIGH and its column
    line is LOW. *)
Definition lit (p : pins) (r c : Z) : Prop :=
  exists pr pc,
    index row r = Some pr /\ index col c = Some pc /\
    p pr = HIGH /\ p pc = LOW.

(** No two row lines are active together. *)
Definition one_row_at_most (p : pins) : Prop :=
  forall r r' pr pr',
    index row r = Some pr -> index row r' = Some pr' ->
    p pr = HIGH -> p pr' = HIGH -> r = r'.

(** What must hold of the pin levels at every point of a scan of [w]. *)
Definition display_safe (w : grid) (p : pins) : Prop :=
  one_row_at_most p /\
  (rows_low p -> cols_high p) /\
  (forall r c, lit p r c -> world_get w r c = Some true).

(** What must hold when a write is about to be made: a row line is only
    driven HIGH when every row line is LOW and every column line HIGH, and
    only driven LOW when every column line is back to HIGH. *)
Definition activation_safe (p : pins) (e : event) : Prop :=
  match e with
  | DigitalWrite pin HIGH => In pin row -> idle p
  | DigitalWrite pin LOW => In pin row -> cols_high p
  end.

(** Row [r] is the active one and no column sinks. *)
Definition row_active (r : Z) (p : pins) : Prop :=
  exists pr,
    index row r = Some pr /\ p pr = HIGH /\
    (forall q, In q row -> q <> pr -> p q = LOW) /\
    cols_high p.

(** Row [r] is the active one and column [c], of a live cell, sinks. *)
Definition cell_lit (w : grid) (r c : Z) (p : pins) : Prop :=
  exists pr pc,
    index row r = Some pr /\ index col c = Some pc /\
    world_get w r c = Some true /\
    p pr = HIGH /\ (forall q, In q row -> q <> pr -> p q = LOW) /\
    p pc = LOW /\ (forall q, In q col -> q <> pc -> p q = HIGH).

(** The three configurations a scan passes through. *)
Definition scan_phase (w : grid) (p : pins) : Prop :=
  idle p \/ (exists r, row_active r p) \/ (exists r c, cell_lit w r c p).

(** [G] holds of the pin levels after every prefix of [tr], and [T] of the
    levels before each write together with that write. *)
Definition trace_ok (G : pins -> Prop) (T : pins -> event -> Prop)
    (p0 : pins) (tr : list event) : Prop :=
  (forall pre suf, tr = pre ++ suf -> G (run pre p0)) /\
  (forall pre e suf, tr = pre ++ e :: suf -> T (run pre p0) e).

End Sketch.

(** ** Reference definitions the sketch is compared with *)

(** The four rules of the header comment, in their order; a cell to which
    none applies (a dead cell without exactly three live neighbours) keeps
    its state. *)
Definition canonical_rules (n : Z) (alive : bool) : bool :=
  if alive && (n <? 2) then false
  else if alive && ((n =? 2) || (n =? 3)) then true
  else if alive && (3 <? n) then false
  else if negb alive && (n =? 3) then true
  else alive.

(** The eight neighbours of [(r, c)] on the torus. *)
Definition torus_neighbors (r c : Z) : list (Z * Z) :=
  [ ((r - 1) mod ROWS, (c - 1) mod COLS);
    ((r - 1) mod ROWS, c mod COLS);
    ((r - 1) mod ROWS, (c + 1) mod COLS);
    (r mod ROWS, (c - 1) mod COLS);
    (r mod ROWS, (c + 1) mod COLS);
    ((r + 1) mod ROWS, (c - 1) mod COLS);
    ((r + 1) mod ROWS, c mod COLS);
    ((r + 1) mod ROWS, (c + 1) mod COLS) ].

(** Number of live cells among the listed coordinates of [w]. *)
Fixpoint live_among (w : grid) (ps : list (Z * Z)) (acc : Z) : option Z :=
  match ps with
  | [] => Some acc
  | (y, x) :: ps' =>
      cell ← world_get w y x; live_among w ps' (acc + bool_to_int cell)
  end.

(** The grid whose live cells are exactly the listed coordinates. *)
Definition grid_of (cells : list (Z * Z)) : grid :=
  map (fun y =>
    map (fun x =>
      existsb (fun p => (fst p =? y) && (snd p =? x)) cells)
      (map Z.of_nat (seq 0 (Z.to_nat COLS))))
    (map Z.of_nat (seq 0 (Z.to_nat ROWS))).

(** Translation of a list of cells by [(dy, dx)] on the torus. *)
Definition translate (dy dx : Z) (cells : list (Z * Z)) : list (Z * Z) :=
  map (fun p => ((fst p + dy) mod ROWS, (snd p + dx) mod COLS)) cells.

(** The glider heading towards increasing rows and columns. *)
Definition glider : list (Z * Z) :=
  [ (0, 1); (1, 2); (2, 0); (2, 1); (2, 2) ].

(** A single live cell. *)
Definition lone_cell : list (Z * Z) := [ (3, 3) ].

(** A run of [random] whose 28th result alone is 1: it fills [world] with
    the single live cell [(3, 3)]. *)
Definition rnd_lone (k : nat) : Z := if (k =? 27)%nat then 1 else 0.

(** The 2x2 block with its top-left cell at [(0, 0)]. *)
Definition block : list (Z * Z) :=
  [ (0, 0); (0, 1); (1, 0); (1, 1) ].

(** ** The running sketch *)

(** What can happen to the sketch once [setup] has returned: the runtime
    calls [loop] again, [millis] returning [time] in that iteration, or a
    rising edge on pin 21 or on pin 20 runs the attached handler.  The
    handlers write the two flags only and [loop] does not mention the flags,
    so an edge arriving inside an iteration acts as one arriving between two
    iterations. *)
Inductive input : Type :=
  | Tick (time : Z)
  | PauseEdge
  | StepEdge.

Definition is_tick (i : input) : bool :=
  match i with Tick _ => true | _ => false end.

Definition is_pause_edge (i : input) : bool :=
  match i with PauseEdge => true | _ => false end.

Section Program.
Context {board : Board}.

Definition react (i : input) (s : state) : option state :=
  match i with
  | Tick time => loop time s
  | PauseEdge => Some (togglePause s)
  | StepEdge => Some (setStep s)
  end.

Fixpoint exec (inputs : list input) (s : state) : option state :=
  match inputs with
  | [] => Some s
  | i :: inputs' => s' ← react i s; exec inputs' s'
  end.

(** The pins of the LED matrix. *)
Definition matrix_pin (q : Z) : Prop := In q (row ++ col).

(** Every live cell the scan has passed when it stands at [(r, c)] was lit
    after some prefix of the writes [out] made so far. *)
Definition lit_before (w : grid) (p0 : pins) (r c : Z) (out : list event)
    : Prop :=
  forall y x, scanned r c y x -> world_get w y x = Some true ->
    exists pre suf, out = pre ++ suf /\ lit (run pre p0) y x.

End Program.

(** Number of iterations of [loop], among [inputs], that find the period
    elapsed, [last] being the value of [lastTime] at the start. *)
Fixpoint generations_due (inputs : list input) (last : Z) : nat :=
  match inputs with
  | [] => O
  | Tick time :: inputs' =>
      if 1000 <=? (time - last) mod 2 ^ 32
      then Datatypes.S (generations_due inputs' time)
      else generations_due inputs' last
  | _ :: inputs' => generations_due inputs' last
  end.

(** The pin a write is made to. *)
Definition event_pin (e : event) : Z :=
  match e with DigitalWrite pin _ => pin end.

(** The value [setup] stores for the [k]-th result of [random]. *)
Definition random_cell (rnd : nat -> Z) (k : Z) : bool :=
  negb (rnd (Z.to_nat k) =? 0).

(** The 8x8 grid whose cell [(y, x)] is [f y x]. *)
Definition grid_from (f : Z -> Z -> bool) : grid :=
  map (fun y => map (fun x => f y x) (map Z.of_nat (seq 0 (Z.to_nat COLS))))
      (map Z.of_nat (seq 0 (Z.to_nat ROWS))).

(** The grid [w] moved by [(dy, dx)] on the torus: the cell found at
    [(y, x)] is the one [w] has at [(y - dy, x - dx)]. *)
Definition shift (dy dx : Z) (w : grid) : grid :=
  grid_from (fun y x =>
    default false (world_get w ((y - dy) mod ROWS) ((x - dx) mod COLS))).

(** The largest value of the 16-bit [int] of the target. *)
Definition INT_MAX : Z := 32767.

(** * Properties *)

(** ** Arrays *)

Lemma index_Some {A : Type} (a : list A) (i : Z) (v : A) :
  index a i = Some v <-> 0 <= i /\ a !! Z.to_nat i = Some v.
Proof.
  unfold index. destruct (Z.leb_spec 0 i); split; intros H1.
  - split; [lia | exact H1].
  - tauto.
  - discriminate.
  - lia.
Qed.

Lemma index_in_range {A : Type} (a : list A) (i : Z) :
  0 <= i < Z.of_nat (length a) -> exists v, index a i = Some v.
Proof.
  intros H. destruct (lookup_lt_is_Some_2 a (Z.to_nat i)) as [v Hv]; [lia|].
  exists v. apply index_Some. split; [lia | exact Hv].
Qed.

Lemma index_Some_range {A : Type} (a : list A) (i : Z) (v : A) :
  index a i = Some v -> 0 <= i < Z.of_nat (length a).
Proof.
  intros [H0 H]%index_Some. apply lookup_lt_Some in H. lia.
Qed.

Lemma store_Some {A : Type} (a a' : list A) (i : Z) (v : A) :
  store a i v = Some a' <->
  0 <= i < Z.of_nat (length a) /\ a' = <[Z.to_nat i := v]> a.
Proof.
  unfold store.
  destruct (Z.leb_spec 0 i), (Z.ltb_spec i (Z.of_nat (length a))); cbn;
    split; intros H1; try discriminate; try lia.
  - inversion H1. split; [lia | reflexivity].
  - destruct H1 as [_ ->]. reflexivity.
Qed.

Lemma index_store_same {A : Type} (a a' : list A) (i : Z) (v : A) :
  store a i v = Some a' -> index a' i = Some v.
Proof.
  intros [Hi ->]%store_Some. apply index_Some. split; [lia|].
  apply list_lookup_insert_eq. lia.
Qed.

Lemma index_store_other {A : Type} (a a' : list A) (i j : Z) (v : A) :
  store a i v = Some a' -> j <> i -> index a' j = index a j.
Proof.
  intros [Hi ->]%store_Some Hne. unfold index.
  destruct (Z.leb_spec 0 j); [|reflexivity].
  apply list_lookup_insert_ne. lia.
Qed.

Lemma store_length {A : Type} (a a' : list A) (i : Z) (v : A) :
  store a i v = Some a' -> length a' = length a.
Proof. intros [_ ->]%store_Some. apply length_insert. Qed.

(** ** The world array *)

Lemma well_formedb_spec (w : grid) : well_formedb w = true <-> well_formed w.
Proof.
  unfold well_formedb, well_formed.
  rewrite andb_true_iff, Z.eqb_eq, forallb_forall, Forall_forall.
  split; intros [H1 H2]; (split; [exact H1|]); intros x Hx.
  - apply Z.eqb_eq, H2, list_elem_of_In, Hx.
  - apply Z.eqb_eq, H2, list_elem_of_In, Hx.
Qed.

Lemma well_formed_line (w : grid) (y : Z) (line : list bool) :
  well_formed w -> index w y = Some line -> Z.of_nat (length line) = COLS.
Proof.
  intros [_ Hall] [_ H]%index_Some.
  rewrite Forall_forall in Hall. apply Hall.
  apply list_elem_of_lookup. eauto.
Qed.

Lemma world_get_in_range (w : grid) (y x : Z) :
  well_formed w -> 0 <= y < ROWS -> 0 <= x < COLS ->
  exists b, world_get w y x = Some b.
Proof.
  intros Hwf Hy Hx. unfold world_get.
  destruct (index_in_range w y) as [line Hl]; [destruct Hwf; lia|].
  rewrite Hl. cbn. apply index_in_range.
  rewrite (well_formed_line w y line Hwf Hl). exact Hx.
Qed.

Lemma world_get_Some_range (w : grid) (y x : Z) (b : bool) :
  well_formed w -> world_get w y x = Some b -> 0 <= y < ROWS /\ 0 <= x < COLS.
Proof.
  intros Hwf H. unfold world_get in H.
  destruct (index w y) as [line|] eqn:Hl; [|discriminate]. cbn in H.
  split.
  - apply index_Some_range in Hl. destruct Hwf. lia.
  - apply index_Some_range in H.
    rewrite (well_formed_line w y line Hwf Hl) in H. exact H.
Qed.

Lemma world_set_in_range (w : grid) (y x : Z) (v : bool) :
  well_formed w -> 0 <= y < ROWS -> 0 <= x < COLS ->
  exists w', world_set w y x v = Some w'.
Proof.
  intros Hwf Hy Hx. unfold world_set.
  destruct (index_in_range w y) as [line Hl]; [destruct Hwf; lia|].
  rewrite Hl. cbn.
  assert (Hlen := well_formed_line w y line Hwf Hl).
  exists (<[Z.to_nat y := <[Z.to_nat x := v]> line]> w).
  replace (store line x v) with (Some (<[Z.to_nat x := v]> line))
    by (symmetry; apply store_Some; split; [lia | reflexivity]).
  cbn. apply store_Some. destruct Hwf. split; [lia | reflexivity].
Qed.

Lemma world_set_inv (w w' : grid) (y x : Z) (v : bool) :
  world_set w y x v = Some w' ->
  exists line line',
    index w y = Some line /\ store line x v = Some line' /\
    store w y line' = Some w'.
Proof.
  unfold world_set. intros H.
  destruct (index w y) as [line|]; [|discriminate]. cbn in H.
  destruct (store line x v) as [line'|] eqn:Hs; [|discriminate]. cbn in H.
  eauto.
Qed.

Lemma world_set_well_formed (w w' : grid) (y x : Z) (v : bool) :
  well_formed w -> world_set w y x v = Some w' -> well_formed w'.
Proof.
  intros Hwf (line & line' & Hl & Hs & Hw)%world_set_inv.
  assert (Hlen := well_formed_line w y line Hwf Hl).
  destruct Hwf as [H1 H2]. split.
  - rewrite (store_length _ _ _ _ Hw). exact H1.
  - apply store_Some in Hw as [_ ->]. apply Forall_insert; [exact H2|].
    rewrite (store_length _ _ _ _ Hs). exact Hlen.
Qed.

Lemma world_get_set_same (w w' : grid) (y x : Z) (v : bool) :
  world_set w y x v = Some w' -> world_get w' y x = Some v.
Proof.
  intros (line & line' & Hl & Hs & Hw)%world_set_inv. unfold world_get.
  rewrite (index_store_same _ _ _ _ Hw). cbn.
  exact (index_store_same _ _ _ _ Hs).
Qed.

Lemma world_get_set_other (w w' : grid) (y x y' x' : Z) (v : bool) :
  world_set w y x v = Some w' -> (y', x') <> (y, x) ->
  world_get w' y' x' = world_get w y' x'.
Proof.
  intros (line & line' & Hl & Hs & Hw)%world_set_inv Hne. unfold world_get.
  destruct (Z.eq_dec y' y) as [->|Hy].
  - rewrite (index_store_same _ _ _ _ Hw), Hl. cbn.
    apply (index_store_other _ _ _ _ _ Hs). congruence.
  - rewrite (index_store_other _ _ _ _ _ Hw Hy). reflexivity.
Qed.

(** ** Counted loops *)

Lemma iter_from_inv {S : Type} (P : Z -> S -> Prop)
    (body : Z -> S -> option S) (n : nat) (i : Z) (s : S) :
  P i s ->
  (forall j x, i <= j < i + Z.of_nat n -> P j x ->
     exists x', body j x = Some x' /\ P (j + 1) x') ->
  exists s', iter_from n i body s = Some s' /\ P (i + Z.of_nat n) s'.
Proof.
  revert i s. induction n as [|n IH]; intros i s Hs Hbody.
  - exists s. split; [reflexivity|]. replace (i + Z.of_nat 0) with i by lia.
    exact Hs.
  - destruct (Hbody i s) as (x' & Hx & HP); [lia | exact Hs |].
    destruct (IH (i + 1) x' HP) as (s' & Hrun & HP').
    + intros j x Hj. apply Hbody. lia.
    + exists s'. cbn. rewrite Hx. cbn. split; [exact Hrun|].
      replace (i + Z.of_nat (Datatypes.S n)) with (i + 1 + Z.of_nat n) by lia.
      exact HP'.
Qed.

Lemma for_lt_inv {S : Type} (P : Z -> S -> Prop)
    (body : Z -> S -> option S) (lo hi : Z) (s : S) :
  lo <= hi ->
  P lo s ->
  (forall j x, lo <= j < hi -> P j x ->
     exists x', body j x = Some x' /\ P (j + 1) x') ->
  exists s', for_lt lo hi body s = Some s' /\ P hi s'.
Proof.
  intros Hle Hs Hbody. unfold for_lt.
  destruct (iter_from_inv P body (Z.to_nat (hi - lo)) lo s Hs)
    as (s' & Hrun & HP).
  - intros j x Hj. apply Hbody. lia.
  - exists s'. split; [exact Hrun|].
    replace (lo + Z.of_nat (Z.to_nat (hi - lo))) with hi in HP by lia.
    exact HP.
Qed.

Lemma for_le_around {S : Type} (body : Z -> S -> option S) (m : Z) (s : S) :
  for_le (m - 1) (m + 1) body s =
  s1 ← body (m - 1) s; s2 ← body m s1; body (m + 1) s2.
Proof.
  unfold for_le.
  replace (Z.to_nat (m + 1 + 1 - (m - 1))) with 3%nat by lia.
  cbn [iter_from]. replace (m - 1 + 1) with m by lia.
  destruct (body (m - 1) s) as [s1|]; [cbn|reflexivity].
  destruct (body m s1) as [s2|]; [cbn|reflexivity].
  destruct (body (m + 1) s2); reflexivity.
Qed.

(** ** Neighbor counter *)

Ltac each_index r :=
  let H := fresh in
  assert (H : r = 0 \/ r = 1 \/ r = 2 \/ r = 3 \/
              r = 4 \/ r = 5 \/ r = 6 \/ r = 7)
    by (unfold ROWS, COLS in *; lia);
  repeat (destruct H as [H|H]; [subst r|]); [..|subst r].

Lemma eqb_pred (m : Z) : (m - 1 =? m) = false.
Proof. apply Z.eqb_neq. lia. Qed.

Lemma eqb_succ (m : Z) : (m + 1 =? m) = false.
Proof. apply Z.eqb_neq. lia. Qed.

Ltac unroll_neighbor_loops :=
  repeat progress
    (rewrite ?for_le_around, ?eqb_pred, ?eqb_succ, ?Z.eqb_refl;
     cbn [mbind option_bind andb app]).

Lemma neighbor_accesses_unfold (r c : Z) :
  neighbor_accesses r c = Some (wrapped_neighbors r c).
Proof. unfold neighbor_accesses. unroll_neighbor_loops. reflexivity. Qed.

Lemma countNeighbors_unfold (w : grid) (r c : Z) :
  countNeighbors w r c = live_among w (wrapped_neighbors r c) 0.
Proof.
  unfold countNeighbors. cbn [live_among wrapped_neighbors].
  repeat progress
    (unroll_neighbor_loops;
     try match goal with
         | |- context [world_get ?w0 ?y ?x] =>
             destruct (world_get w0 y x); cbn [mbind option_bind]
         end;
     try reflexivity).
Qed.

(** On every index the loops can produce from an in-bounds coordinate, the
    conditional expression is reduction modulo the array size. *)
Lemma wrap_mod (i n : Z) : 0 < n -> -1 <= i -> wrap i n = i mod n.
Proof.
  intros Hn Hi. unfold wrap. destruct (Z.leb_spec 0 i).
  - apply Z.rem_mod_nonneg; lia.
  - replace i with (-1) by lia.
    apply (Z.mod_unique (-1) n (-1) (n - 1)); lia.
Qed.

Lemma wrapped_neighbors_torus (r c : Z) :
  0 <= r -> 0 <= c -> wrapped_neighbors r c = torus_neighbors r c.
Proof.
  intros Hr Hc. unfold wrapped_neighbors, torus_neighbors, ROWS, COLS.
  rewrite !wrap_mod by lia. reflexivity.
Qed.

Lemma torus_neighbors_in_bounds (r c : Z) :
  Forall in_bounds (torus_neighbors r c).
Proof.
  unfold torus_neighbors, ROWS, COLS.
  repeat apply Forall_cons_2; try apply Forall_nil;
    split; cbn [fst snd];
    match goal with
    | |- context [?a mod 8] => pose proof (Z.mod_pos_bound a 8 ltac:(lia))
    end; lia.
Qed.

Lemma torus_neighbors_not_self (r c : Z) :
  0 <= r < ROWS -> 0 <= c < COLS -> ~ In (r, c) (torus_neighbors r c).
Proof.
  intros Hr Hc. each_index r; each_index c; vm_compute;
    intuition congruence.
Qed.

Lemma live_among_ext (w w' : grid) (ps : list (Z * Z)) (acc : Z) :
  (forall p, In p ps -> world_get w' (fst p) (snd p) = world_get w (fst p) (snd p)) ->
  live_among w' ps acc = live_among w ps acc.
Proof.
  revert acc. induction ps as [|[y x] ps IH]; intros acc H; [reflexivity|].
  cbn [live_among].
  assert (Hyx := H (y, x) (or_introl eq_refl)). cbn [fst snd] in Hyx.
  rewrite Hyx.
  destruct (world_get w y x); [cbn|reflexivity].
  apply IH. intros p Hp. apply H. right. exact Hp.
Qed.

Lemma live_among_bounded (w : grid) (ps : list (Z * Z)) (acc : Z) :
  well_formed w -> Forall in_bounds ps ->
  exists n, live_among w ps acc = Some n /\
            acc <= n <= acc + Z.of_nat (length ps).
Proof.
  intros Hwf. revert acc. induction ps as [|[y x] ps IH]; intros acc Hall.
  - exists acc. cbn. split; [reflexivity | lia].
  - apply Forall_cons in Hall as [[Hy Hx] Hall]. cbn [fst snd] in Hy, Hx.
    destruct (world_get_in_range w y x Hwf) as [b Hb];
      [unfold ROWS; lia | unfold COLS; lia |].
    destruct (IH (acc + bool_to_int b) Hall) as (n & Hn & Hbound).
    exists n. cbn [live_among]. rewrite Hb. cbn. split; [exact Hn|].
    cbn [length]. destruct b; cbn [bool_to_int] in Hbound; lia.
Qed.

Lemma countNeighbors_torus (w : grid) (r c : Z) :
  0 <= r -> 0 <= c ->
  countNeighbors w r c = live_among w (torus_neighbors r c) 0.
Proof.
  intros Hr Hc. rewrite countNeighbors_unfold, wrapped_neighbors_torus by lia.
  reflexivity.
Qed.

Lemma countNeighbors_total (w : grid) (r c : Z) :
  well_formed w -> 0 <= r -> 0 <= c ->
  exists n, countNeighbors w r c = Some n /\ 0 <= n <= 8.
Proof.
  intros Hwf Hr Hc. rewrite countNeighbors_torus by lia.
  destruct (live_among_bounded w (torus_neighbors r c) 0 Hwf
              (torus_neighbors_in_bounds r c)) as (n & Hn & Hb).
  exists n. split; [exact Hn|]. cbn in Hb. lia.
Qed.

Lemma torus_neighbors_NoDup (r c : Z) :
  0 <= r < ROWS -> 0 <= c < COLS -> NoDup (torus_neighbors r c).
Proof.
  intros Hr Hc. each_index r; each_index c;
    apply (bool_decide_unpack _); vm_compute; exact I.
Qed.

(** C4.  The neighbor counter is toroidal.  For every grid and every
    [(r, c)] inside the 8x8 bounds, the coordinates [countNeighbors] reads
    are exactly the eight pairwise distinct cells
    [((r + dr) mod 8, (c + dc) mod 8)], [dr], [dc] in [-1 .. 1] and not both
    zero, its result is the number of live cells among them, and [(r, c)]
    itself is not one of them.  Index -1 wraps to 7 and index 8 wraps to 0;
    at [(0, 0)] the cells read include [(7, 7)], [(7, 0)] and [(0, 7)]. *)
Theorem countNeighbors_toroidal (w : grid) (r c : Z) :
  0 <= r < ROWS -> 0 <= c < COLS ->
  neighbor_accesses r c = Some (torus_neighbors r c) /\
  countNeighbors w r c = live_among w (torus_neighbors r c) 0 /\
  NoDup (torus_neighbors r c) /\
  ~ In (r, c) (torus_neighbors r c) /\
  (wrap (-1) ROWS = 7 /\ wrap 8 ROWS = 0 /\
   wrap (-1) COLS = 7 /\ wrap 8 COLS = 0) /\
  neighbor_accesses 0 0 =
    Some [(7, 7); (7, 0); (7, 1); (0, 7); (0, 1); (1, 7); (1, 0); (1, 1)].
Proof.
  intros Hr Hc. repeat split.
  - rewrite neighbor_accesses_unfold, wrapped_neighbors_torus by lia.
    reflexivity.
  - apply countNeighbors_torus; lia.
  - apply torus_neighbors_NoDup; assumption.
  - apply torus_neighbors_not_self; assumption.
Qed.

Lemma countNeighbors_toroidal_witness :
  countNeighbors (grid_of glider) 0 0 =
    live_among (grid_of glider) (torus_neighbors 0 0) 0.
Proof.
  apply (countNeighbors_toroidal (grid_of glider) 0 0); unfold ROWS, COLS; lia.
Defined.

(** C5.  For every well-formed grid and every [(r, c)] in the 8x8 domain,
    [countNeighbors r c] returns a value between 0 and 8, and the cell
    [(r, c)] itself is not counted: it is not among the cells read, and
    overwriting it with any value leaves the count unchanged. *)
Theorem countNeighbors_excludes_self_and_bounded (w : grid) (r c : Z) :
  well_formed w -> 0 <= r < ROWS -> 0 <= c < COLS ->
  (exists n, countNeighbors w r c = Some n /\ 0 <= n <= 8) /\
  (forall accs, neighbor_accesses r c = Some accs -> ~ In (r, c) accs) /\
  (forall v w', world_set w r c v = Some w' ->
                countNeighbors w' r c = countNeighbors w r c).
Proof.
  intros Hwf Hr Hc. split; [|split].
  - apply countNeighbors_total; [assumption | lia | lia].
  - intros accs Hacc.
    rewrite neighbor_accesses_unfold, wrapped_neighbors_torus in Hacc by lia.
    inversion Hacc; subst accs. apply torus_neighbors_not_self; assumption.
  - intros v w' Hset. rewrite !countNeighbors_torus by lia.
    apply live_among_ext. intros [y x] Hin. cbn [fst snd].
    apply (world_get_set_other _ _ _ _ _ _ _ Hset).
    intros Heq. inversion Heq; subst y x.
    exact (torus_neighbors_not_self r c Hr Hc Hin).
Qed.

Lemma countNeighbors_excludes_self_and_bounded_witness :
  exists n, countNeighbors (grid_of block) 0 0 = Some n /\ 0 <= n <= 8.
Proof.
  apply (countNeighbors_excludes_self_and_bounded (grid_of block) 0 0).
  - apply well_formedb_spec. vm_compute. reflexivity.
  - unfold ROWS. lia.
  - unfold COLS. lia.
Defined.

(** C10.  For every [(r, c)] with [0 <= r <= 7] and [0 <= c <= 7], the
    conditional expression maps each loop index [i] in [r-1 .. r+1] and
    [j] in [c-1 .. c+1] into [0 .. 7]; every coordinate at which
    [countNeighbors] indexes [world] is inside the bounds, every such read
    of a well-formed grid succeeds, and so does [countNeighbors]: the
    out-of-bounds branch of the indexing is not reached. *)
Theorem countNeighbors_accesses_in_bounds (w : grid) (r c : Z) :
  well_formed w -> 0 <= r <= 7 -> 0 <= c <= 7 ->
  (forall i, r - 1 <= i <= r + 1 -> 0 <= wrap i ROWS <= 7) /\
  (forall j, c - 1 <= j <= c + 1 -> 0 <= wrap j COLS <= 7) /\
  (exists accs, neighbor_accesses r c = Some accs /\
     Forall (fun p => in_bounds p /\
                      is_Some (world_get w (fst p) (snd p))) accs) /\
  is_Some (countNeighbors w r c).
Proof.
  intros Hwf Hr Hc.
  assert (Hwrap : forall i, -1 <= i <= 8 -> 0 <= wrap i 8 <= 7).
  { intros i Hi. rewrite wrap_mod by lia.
    pose proof (Z.mod_pos_bound i 8 ltac:(lia)). lia. }
  split; [|split; [|split]].
  - intros i Hi. apply Hwrap. lia.
  - intros j Hj. apply Hwrap. lia.
  - exists (torus_neighbors r c). split.
    + rewrite neighbor_accesses_unfold, wrapped_neighbors_torus by lia.
      reflexivity.
    + eapply Forall_impl; [apply torus_neighbors_in_bounds|].
      intros [y x] Hb. split; [exact Hb|].
      destruct Hb as [Hy Hx]. cbn [fst snd] in *.
      destruct (world_get_in_range w y x Hwf) as [b Hb];
        [unfold ROWS; lia | unfold COLS; lia |].
      rewrite Hb. eauto.
  - destruct (countNeighbors_total w r c Hwf) as (n & Hn & _); [lia | lia |].
    rewrite Hn. eauto.
Qed.

Lemma countNeighbors_accesses_in_bounds_witness :
  is_Some (countNeighbors (grid_of glider) 7 7).
Proof.
  apply (countNeighbors_accesses_in_bounds (grid_of glider) 7 7).
  - apply well_formedb_spec. vm_compute. reflexivity.
  - lia.
  - lia.
Defined.

(** ** Rule engine *)

(** C2.  For every neighbour count [n] in [0 .. 8] and every current cell
    state, the three-case rule of [updateWorld] ([n = 2]: unchanged,
    [n = 3]: alive, otherwise dead) gives the same next state as the four
    classical rules of the Game of Life. *)
Theorem next_state_canonical (n : Z) (cur : bool) :
  0 <= n <= 8 -> next_state n cur = canonical_rules n cur.
Proof.
  intros Hn. unfold next_state, switch3, canonical_rules.
  destruct cur, (Z.eqb_spec n 2), (Z.eqb_spec n 3),
    (Z.ltb_spec n 2), (Z.ltb_spec 3 n); cbn; try reflexivity; lia.
Qed.

Lemma next_state_canonical_witness :
  0 <= 3 <= 8 /\ next_state 3 false = canonical_rules 3 false.
Proof.
  split; [lia | apply (next_state_canonical 3 false); lia].
Defined.

(** Row-major scan of the grid by two nested loops, with an invariant [Q]
    indexed by the position the scan has reached. *)
Lemma scan_inv {S : Type} (Q : Z -> Z -> S -> Prop)
    (cell : Z -> Z -> S -> option S) (s : S) :
  Q 0 0 s ->
  (forall r x, 0 <= r < ROWS -> Q r COLS x -> Q (r + 1) 0 x) ->
  (forall r c x, 0 <= r < ROWS -> 0 <= c < COLS -> Q r c x ->
     exists x', cell r c x = Some x' /\ Q r (c + 1) x') ->
  exists s',
    for_lt 0 ROWS (fun r st => for_lt 0 COLS (fun c st => cell r c st) st) s
      = Some s' /\ Q ROWS 0 s'.
Proof.
  intros H0 Hrow Hcell.
  apply (for_lt_inv (fun r x => Q r 0 x)); [unfold ROWS; lia | exact H0 |].
  intros r x Hr HQ.
  destruct (for_lt_inv (fun c y => Q r c y) (fun c st => cell r c st)
              0 COLS x) as (x' & Hx' & HQ').
  - unfold COLS; lia.
  - exact HQ.
  - intros c y Hc. apply Hcell; assumption.
  - exists x'. split; [exact Hx' | apply Hrow; assumption].
Qed.

Lemma scanned_next_row (r y x : Z) :
  scanned (r + 1) 0 y x -> scanned r COLS y x.
Proof. unfold scanned. intros [H|H]; [|lia]. destruct (Z.eq_dec y r); lia. Qed.

Lemma scanned_next_cell (r c y x : Z) :
  0 <= c -> scanned r (c + 1) y x -> (y, x) = (r, c) \/ scanned r c y x.
Proof.
  unfold scanned. intros Hc [H|[-> H]]; [right; left; exact H|].
  destruct (Z.eq_dec x c) as [->|]; [left; reflexivity | right; right; lia].
Qed.

Lemma scanned_all (y x : Z) :
  0 <= y < ROWS -> 0 <= x < COLS -> scanned ROWS 0 y x.
Proof. unfold scanned. intros Hy Hx. left. split; assumption. Qed.

Lemma all_false_well_formed : well_formed all_false.
Proof. apply well_formedb_spec. reflexivity. Qed.

Lemma switch3_Some (n : Z) (cur : bool) :
  switch3 n (Some cur) (Some true) (Some false) = Some (next_state n cur).
Proof.
  unfold next_state, switch3. destruct (n =? 2), (n =? 3); reflexivity.
Qed.

Lemma transition_in_range (w : grid) (r c : Z) :
  well_formed w -> 0 <= r < ROWS -> 0 <= c < COLS ->
  exists n cur,
    countNeighbors w r c = Some n /\ world_get w r c = Some cur /\
    transition w r c = Some (next_state n cur).
Proof.
  intros Hwf Hr Hc.
  destruct (countNeighbors_total w r c Hwf) as (n & Hn & _); [lia | lia |].
  destruct (world_get_in_range w r c Hwf Hr Hc) as (cur & Hcur).
  exists n, cur. unfold transition. rewrite Hn, Hcur. auto.
Qed.

(** The first pair of loops leaves [world] alone and fills [nextWorld] with
    the transition of every cell. *)
Lemma compute_phase_spec (w next0 : grid) :
  well_formed w -> well_formed next0 ->
  exists st1,
    compute_phase (Frame w next0) = Some st1 /\
    f_world st1 = w /\ well_formed (f_nextWorld st1) /\
    forall r c, 0 <= r < ROWS -> 0 <= c < COLS ->
      world_get (f_nextWorld st1) r c = transition w r c.
Proof.
  intros Hwf Hwf0.
  destruct (scan_inv
    (fun r c st =>
       f_world st = w /\ well_formed (f_nextWorld st) /\
       forall y x, scanned r c y x ->
         world_get (f_nextWorld st) y x = transition w y x)
    compute_cell (Frame w next0)) as (st1 & Hrun & Hw & Hwf1 & Hcells).
  - cbn. split; [reflexivity|]. split; [exact Hwf0|].
    unfold scanned. intros y x H. lia.
  - intros r st Hr (Hw & Hwf1 & Hcells). split; [exact Hw|].
    split; [exact Hwf1|]. intros y x H. apply Hcells, scanned_next_row, H.
  - intros r c [w1 next1] Hr Hc (Hw & Hwf1 & Hcells). cbn in Hw, Hwf1, Hcells.
    subst w1.
    destruct (transition_in_range w r c Hwf Hr Hc) as (n & cur & Hn & Hcur & Ht).
    destruct (world_set_in_range next1 r c (next_state n cur) Hwf1 Hr Hc)
      as (nw & Hnw).
    exists (Frame w nw). unfold compute_cell. cbn [f_world f_nextWorld].
    rewrite Hn. cbn. rewrite Hcur, switch3_Some. cbn. rewrite Hnw. cbn.
    split; [reflexivity|]. split; [reflexivity|].
    split; [exact (world_set_well_formed _ _ _ _ _ Hwf1 Hnw)|].
    intros y x Hs. apply scanned_next_cell in Hs as [Heq|Hs]; [| |lia].
    + inversion Heq; subst y x. rewrite Ht.
      exact (world_get_set_same _ _ _ _ _ Hnw).
    + rewrite <- (Hcells y x Hs).
      apply (world_get_set_other _ _ _ _ _ _ _ Hnw).
      intros Heq. inversion Heq; subst y x. unfold scanned in Hs. lia.
  - exists st1. split; [exact Hrun|]. split; [exact Hw|].
    split; [exact Hwf1|]. intros r c Hr Hc. apply Hcells, scanned_all; assumption.
Qed.

(** The second pair of loops leaves [nextWorld] alone and copies every cell
    of it into [world]. *)
Lemma commit_phase_spec (w next : grid) :
  well_formed w -> well_formed next ->
  exists st2,
    commit_phase (Frame w next) = Some st2 /\
    f_nextWorld st2 = next /\ well_formed (f_world st2) /\
    forall r c, 0 <= r < ROWS -> 0 <= c < COLS ->
      world_get (f_world st2) r c = world_get next r c.
Proof.
  intros Hwf Hwfn.
  destruct (scan_inv
    (fun r c st =>
       f_nextWorld st = next /\ well_formed (f_world st) /\
       forall y x, scanned r c y x ->
         world_get (f_world st) y x = world_get next y x)
    commit_cell (Frame w next)) as (st2 & Hrun & Hn & Hwf2 & Hcells).
  - cbn. split; [reflexivity|]. split; [exact Hwf|].
    unfold scanned. intros y x H. lia.
  - intros r st Hr (Hn & Hwf2 & Hcells). split; [exact Hn|].
    split; [exact Hwf2|]. intros y x H. apply Hcells, scanned_next_row, H.
  - intros r c [w1 next1] Hr Hc (Hn & Hwf1 & Hcells). cbn in Hn, Hwf1, Hcells.
    subst next1.
    destruct (world_get_in_range next r c Hwfn Hr Hc) as (v & Hv).
    destruct (world_set_in_range w1 r c v Hwf1 Hr Hc) as (w2 & Hw2).
    exists (Frame w2 next). unfold commit_cell. cbn [f_world f_nextWorld].
    rewrite Hv. cbn. rewrite Hw2. cbn.
    split; [reflexivity|]. split; [reflexivity|].
    split; [exact (world_set_well_formed _ _ _ _ _ Hwf1 Hw2)|].
    intros y x Hs. apply scanned_next_cell in Hs as [Heq|Hs]; [| |lia].
    + inversion Heq; subst y x. rewrite Hv.
      exact (world_get_set_same _ _ _ _ _ Hw2).
    + rewrite <- (Hcells y x Hs).
      apply (world_get_set_other _ _ _ _ _ _ _ Hw2).
      intros Heq. inversion Heq; subst y x. unfold scanned in Hs. lia.
  - exists st2. split; [exact Hrun|]. split; [exact Hn|].
    split; [exact Hwf2|]. intros r c Hr Hc. apply Hcells, scanned_all; assumption.
Qed.

Lemma grid_ext (w1 w2 : grid) :
  well_formed w1 -> well_formed w2 ->
  (forall r c, 0 <= r < ROWS -> 0 <= c < COLS ->
     world_get w1 r c = world_get w2 r c) ->
  w1 = w2.
Proof.
  intros Hwf1 Hwf2 Hcells. apply list_eq. intros i.
  destruct (decide (Z.of_nat i < ROWS)) as [Hi|Hi].
  - destruct (index_in_range w1 (Z.of_nat i)) as [l1 Hl1];
      [destruct Hwf1; lia|].
    destruct (index_in_range w2 (Z.of_nat i)) as [l2 Hl2];
      [destruct Hwf2; lia|].
    assert (Hlen1 := well_formed_line _ _ _ Hwf1 Hl1).
    assert (Hlen2 := well_formed_line _ _ _ Hwf2 Hl2).
    assert (Hrow : forall c, 0 <= c < COLS -> index l1 c = index l2 c).
    { intros c Hc. specialize (Hcells (Z.of_nat i) c ltac:(lia) Hc).
      unfold world_get in Hcells. rewrite Hl1, Hl2 in Hcells. exact Hcells. }
    apply index_Some in Hl1 as [_ Hl1]. apply index_Some in Hl2 as [_ Hl2].
    rewrite Nat2Z.id in Hl1, Hl2. rewrite Hl1, Hl2. f_equal.
    apply list_eq. intros j.
    destruct (decide (Z.of_nat j < COLS)) as [Hj|Hj].
    + specialize (Hrow (Z.of_nat j) ltac:(lia)). unfold index in Hrow.
      destruct (Z.leb_spec 0 (Z.of_nat j)); [|lia].
      rewrite Nat2Z.id in Hrow. exact Hrow.
    + rewrite !lookup_ge_None_2 by lia. reflexivity.
  - destruct Hwf1, Hwf2. rewrite !lookup_ge_None_2 by lia. reflexivity.
Qed.

Lemma compute_cell_keeps_world (r c : Z) (st st' : frame) :
  compute_cell r c st = Some st' -> f_world st' = f_world st.
Proof.
  unfold compute_cell. intros H.
  destruct (countNeighbors (f_world st) r c) as [n|]; [cbn in H|discriminate].
  destruct (switch3 n (world_get (f_world st) r c) (Some true) (Some false))
    as [v|]; [cbn in H|discriminate].
  destruct (world_set (f_nextWorld st) r c v) as [nw|];
    [cbn in H|discriminate].
  inversion H. reflexivity.
Qed.

(** C3.  One call of [updateWorld] on a well-formed grid first fills the
    separate buffer [nextWorld] with the next state of every cell, no step
    of that computation writing to [world], which still holds the old
    generation when the buffer is complete; then it copies the buffer into
    [world].  The call returns, and afterwards every cell [world[r][c]]
    equals the transition rule applied to the neighbour count and the state
    that cell had in the grid before the call. *)
Theorem updateWorld_computes_then_commits (w : grid) :
  well_formed w ->
  exists st1 w',
    (forall r c st st',
       compute_cell r c st = Some st' -> f_world st' = f_world st) /\
    compute_phase (Frame w all_false) = Some st1 /\
    f_world st1 = w /\
    (forall r c, 0 <= r < ROWS -> 0 <= c < COLS ->
       world_get (f_nextWorld st1) r c = transition w r c) /\
    updateWorld w = Some w' /\
    w' = f_nextWorld st1 /\
    well_formed w' /\
    (forall r c, 0 <= r < ROWS -> 0 <= c < COLS ->
       exists n cur,
         countNeighbors w r c = Some n /\ world_get w r c = Some cur /\
         world_get w' r c = Some (next_state n cur)).
Proof.
  intros Hwf.
  destruct (compute_phase_spec w all_false Hwf all_false_well_formed)
    as ([w1 next] & Hrun1 & Hw1 & Hwfn & Hnext).
  cbn [f_world f_nextWorld] in Hw1, Hwfn, Hnext. subst w1.
  destruct (commit_phase_spec w next Hwf Hwfn)
    as ([w' next'] & Hrun2 & Hn2 & Hwf' & Hcopy).
  cbn [f_world f_nextWorld] in Hn2, Hwf', Hcopy. subst next'.
  exists (Frame w next), w'. cbn [f_world f_nextWorld].
  split; [exact compute_cell_keeps_world|].
  split; [exact Hrun1|]. split; [reflexivity|]. split; [exact Hnext|].
  split; [|split; [|split]].
  - unfold updateWorld. rewrite Hrun1. cbn. rewrite Hrun2. reflexivity.
  - apply grid_ext; assumption.
  - exact Hwf'.
  - intros r c Hr Hc.
    destruct (transition_in_range w r c Hwf Hr Hc) as (n & cur & Hn & Hcur & Ht).
    exists n, cur. split; [exact Hn|]. split; [exact Hcur|].
    rewrite Hcopy, Hnext by assumption. exact Ht.
Qed.

Lemma updateWorld_computes_then_commits_witness :
  exists st1 w',
    (forall r c st st',
       compute_cell r c st = Some st' -> f_world st' = f_world st) /\
    compute_phase (Frame (grid_of glider) all_false) = Some st1 /\
    f_world st1 = grid_of glider /\
    (forall r c, 0 <= r < ROWS -> 0 <= c < COLS ->
       world_get (f_nextWorld st1) r c = transition (grid_of glider) r c) /\
    updateWorld (grid_of glider) = Some w' /\
    w' = f_nextWorld st1 /\
    well_formed w' /\
    (forall r c, 0 <= r < ROWS -> 0 <= c < COLS ->
       exists n cur,
         countNeighbors (grid_of glider) r c = Some n /\
         world_get (grid_of glider) r c = Some cur /\
         world_get w' r c = Some (next_state n cur)).
Proof.
  apply (updateWorld_computes_then_commits (grid_of glider)).
  apply well_formedb_spec. vm_compute. reflexivity.
Defined.

(** ** Patterns on the torus *)

(** C6.  A grid holding only the five-cell glider, placed anywhere on the
    torus, holds after four generations exactly the same pattern translated
    by [(1, 1)] modulo 8 in both coordinates. *)
Theorem glider_four_generations (dy dx : Z) :
  0 <= dy < ROWS -> 0 <= dx < COLS ->
  generations 4 (grid_of (translate dy dx glider)) =
    Some (grid_of (translate 1 1 (translate dy dx glider))).
Proof.
  intros Hy Hx. each_index dy; each_index dx; vm_compute; reflexivity.
Qed.

Lemma glider_four_generations_witness :
  generations 4 (grid_of (translate 0 0 glider)) =
    Some (grid_of (translate 1 1 (translate 0 0 glider))).
Proof.
  apply (glider_four_generations 0 0); unfold ROWS, COLS; lia.
Defined.

(** C7.  A grid holding only a 2x2 block of live cells, placed anywhere on
    the torus (also across its edges), is left identical by one application
    of [updateWorld]. *)
Theorem block_still_life (dy dx : Z) :
  0 <= dy < ROWS -> 0 <= dx < COLS ->
  updateWorld (grid_of (translate dy dx block)) =
    Some (grid_of (translate dy dx block)).
Proof.
  intros Hy Hx. each_index dy; each_index dx; vm_compute; reflexivity.
Qed.

Lemma block_still_life_witness :
  updateWorld (grid_of (translate 7 7 block)) =
    Some (grid_of (translate 7 7 block)).
Proof.
  apply (block_still_life 7 7); unfold ROWS, COLS; lia.
Defined.

(** ** Interrupt handlers *)

(** C9.  Each firing of [togglePause] flips [paused], and two firings
    restore the state; each firing of [setStep] sets [step] when [paused]
    is true and changes nothing otherwise.  Neither handler modifies the
    grid, [lastTime] or the pins: [togglePause] changes [paused] only and
    [setStep] changes [step] only. *)
Theorem handlers_touch_only_flags (s : state) :
  (paused (togglePause s) = negb (paused s) /\
   togglePause (togglePause s) = s /\
   step (togglePause s) = step s /\
   world (togglePause s) = world s /\
   lastTime (togglePause s) = lastTime s /\
   out_pins (togglePause s) = out_pins s) /\
  ((if paused s then step (setStep s) = true else setStep s = s) /\
   paused (setStep s) = paused s /\
   world (setStep s) = world s /\
   lastTime (setStep s) = lastTime s /\
   out_pins (setStep s) = out_pins s).
Proof.
  destruct s as [w t p st o]. unfold togglePause, setStep. cbn.
  rewrite negb_involutive. destruct p; cbn; repeat split; reflexivity.
Qed.

(** ** Scheduler *)

Section Scheduler.
Context {board : Board}.

(** [loop] never reads [paused] or [step]: what it does to the grid and to
    [lastTime] is the same whatever the two flags are, and it hands both
    flags back as it found them. *)
Lemma loop_flags_unused (time : Z) (w : grid) (t : Z) (p st : bool)
    (o : pins) :
  loop time (State w t p st o) =
    (s' ← loop time (State w t false false o);
     Some (State (world s') (lastTime s') p st (out_pins s'))).
Proof.
  unfold loop. cbn [world lastTime paused step out_pins].
  destruct (1000 <=? ulong_sub time t); cbn.
  - destruct (updateWorld w) as [w'|]; [cbn|reflexivity].
    destruct (dispWorld w'); reflexivity.
  - destruct (dispWorld w); reflexivity.
Qed.

Lemma setup_Some (rnd : nat -> Z) (p : pins) (tr : list event)
    (st : nat * grid) :
  setup_pins [] = Some tr -> fill_world rnd = Some st ->
  setup rnd p = Some (State (snd st) 0 false false (run tr p)).
Proof. intros Htr Hst. unfold setup. rewrite Htr, Hst. reflexivity. Qed.

(** A tick that reaches the period: the grid advances and [lastTime] is
    reset, whatever the flags. *)
Lemma loop_due (time : Z) (s : state) (w' : grid) (tr : list event) :
  (1000 <=? ulong_sub time (lastTime s)) = true ->
  updateWorld (world s) = Some w' ->
  dispWorld w' = Some tr ->
  loop time s =
    Some (State w' time (paused s) (step s) (run tr (out_pins s))).
Proof.
  intros Hdue Hw Htr. unfold loop. rewrite Hdue, Hw.
  cbn [mbind option_bind world]. rewrite Htr. reflexivity.
Qed.

Lemma setup_pins_total : exists tr, setup_pins [] = Some tr.
Proof. vm_compute. eauto. Qed.

Lemma fill_world_lone : fill_world rnd_lone = Some (64%nat, grid_of lone_cell).
Proof. vm_compute. reflexivity. Qed.

Lemma updateWorld_lone : updateWorld (grid_of lone_cell) = Some all_false.
Proof. vm_compute. reflexivity. Qed.

Lemma dispWorld_all_false_total : exists tr, dispWorld all_false = Some tr.
Proof. vm_compute. eauto. Qed.

Lemma lone_cell_not_dead : all_false <> grid_of lone_cell.
Proof. vm_compute. discriminate. Qed.

(** C1 (fails on the code).  After [setup] has filled the grid with a single
    live cell and the pause handler has fired once, the state is paused with
    no step requested; the tick of [loop] that reaches the one-second period
    nevertheless advances the grid by a generation (the lone cell dies).
    With a step requested, the same tick leaves [step] set: the flag is not
    consumed. *)
Theorem loop_advances_while_paused :
  exists s0 s1 s2,
    setup rnd_lone (fun _ => LOW) = Some s0 /\
    world s0 = grid_of lone_cell /\
    paused (togglePause s0) = true /\ step (togglePause s0) = false /\
    loop 1000 (togglePause s0) = Some s1 /\
    world s1 = all_false /\ world s1 <> world (togglePause s0) /\
    loop 1000 (setStep (togglePause s0)) = Some s2 /\
    step (setStep (togglePause s0)) = true /\ step s2 = true.
Proof.
  destruct setup_pins_total as [tr0 Htr0].
  destruct dispWorld_all_false_total as [tr Htr].
  pose (o := run tr0 (fun _ : Z => LOW)).
  exists (State (grid_of lone_cell) 0 false false o),
         (State all_false 1000 true false (run tr o)),
         (State all_false 1000 true true (run tr o)).
  split; [exact (setup_Some _ _ _ _ Htr0 fill_world_lone)|].
  split; [reflexivity|]. split; [reflexivity|]. split; [reflexivity|].
  split; [apply loop_due; [reflexivity | exact updateWorld_lone | exact Htr]|].
  split; [reflexivity|]. split; [exact lone_cell_not_dead|].
  split; [apply loop_due; [reflexivity | exact updateWorld_lone | exact Htr]|].
  split; reflexivity.
Qed.

End Scheduler.

(** ** Display driver *)

Lemma run_snoc (tr : list event) (e : event) (p : pins) :
  run (tr ++ [e]) p = digitalWrite e (run tr p).
Proof. unfold run. rewrite fold_left_app. reflexivity. Qed.

Lemma digitalWrite_same (pin : Z) (v : level) (p : pins) :
  digitalWrite (DigitalWrite pin v) p pin = v.
Proof. cbn. rewrite Z.eqb_refl. reflexivity. Qed.

Lemma digitalWrite_other (pin q : Z) (v : level) (p : pins) :
  q <> pin -> digitalWrite (DigitalWrite pin v) p q = p q.
Proof. intros H. cbn. apply Z.eqb_neq in H. rewrite H. reflexivity. Qed.

Lemma trace_ok_nil (G : pins -> Prop) (T : pins -> event -> Prop) (p0 : pins) :
  G p0 -> trace_ok G T p0 [].
Proof.
  intros H. split.
  - intros pre suf Heq. symmetry in Heq. apply app_eq_nil in Heq as [-> _].
    exact H.
  - intros pre e suf Heq. symmetry in Heq. apply app_eq_nil in Heq as [_ Heq].
    discriminate.
Qed.

Lemma trace_ok_snoc (G : pins -> Prop) (T : pins -> event -> Prop)
    (p0 : pins) (tr : list event) (e : event) :
  trace_ok G T p0 tr ->
  T (run tr p0) e ->
  G (digitalWrite e (run tr p0)) ->
  trace_ok G T p0 (tr ++ [e]).
Proof.
  intros [HG HT] He HGe. split.
  - intros pre suf Heq. destruct suf as [|x suf _] using rev_ind.
    + rewrite app_nil_r in Heq. subst pre. rewrite run_snoc. exact HGe.
    + rewrite app_assoc in Heq. apply app_inj_tail in Heq as [Heq _].
      exact (HG pre suf Heq).
  - intros pre x suf Heq. destruct suf as [|y suf _] using rev_ind.
    + apply (app_inj_tail tr pre e x) in Heq as [-> ->]. exact He.
    + change (x :: suf ++ [y]) with ((x :: suf) ++ [y]) in Heq.
      rewrite app_assoc in Heq. apply app_inj_tail in Heq as [Heq _].
      exact (HT pre x suf Heq).
Qed.

Lemma index_In {A : Type} (a : list A) (i : Z) (v : A) :
  index a i = Some v -> In v a.
Proof.
  intros [_ H]%index_Some. apply list_elem_of_In, list_elem_of_lookup. eauto.
Qed.

Lemma index_NoDup_inj {A : Type} (a : list A) (i j : Z) (v : A) :
  NoDup a -> index a i = Some v -> index a j = Some v -> i = j.
Proof.
  intros Hnd [Hi H1]%index_Some [Hj H2]%index_Some.
  assert (Z.to_nat i = Z.to_nat j) by exact (NoDup_lookup a _ _ v Hnd H1 H2).
  lia.
Qed.

Section Display.
Context {board : Board}.
Hypothesis pins_distinct : NoDup (row ++ col).

Lemma row_NoDup : NoDup row.
Proof. apply NoDup_app in pins_distinct. tauto. Qed.

Lemma col_NoDup : NoDup col.
Proof. apply NoDup_app in pins_distinct. tauto. Qed.

Lemma row_not_col (q : Z) : In q row -> In q col -> False.
Proof.
  intros Hr Hc. apply NoDup_app in pins_distinct as (_ & Hdisj & _).
  apply (Hdisj q); apply list_elem_of_In; assumption.
Qed.

Lemma row_pin_in_range (r : Z) :
  0 <= r < ROWS -> exists pr, index row r = Some pr.
Proof. intros Hr. apply index_in_range. exact Hr. Qed.

Lemma col_pin_in_range (c : Z) :
  0 <= c < COLS -> exists pc, index col c = Some pc.
Proof. intros Hc. apply index_in_range. exact Hc. Qed.

(** *** The four writes of a scan, as moves between configurations *)

Lemma activate_row (r pr : Z) (p : pins) :
  index row r = Some pr -> idle p ->
  row_active r (digitalWrite (DigitalWrite pr HIGH) p).
Proof.
  intros Hpr [Hrows Hcols]. exists pr.
  split; [exact Hpr|]. split; [apply digitalWrite_same|]. split.
  - intros q Hq Hne. rewrite digitalWrite_other by exact Hne.
    exact (proj1 (List.Forall_forall _ _) Hrows q Hq).
  - apply List.Forall_forall. intros q Hq. rewrite digitalWrite_other.
    + exact (proj1 (List.Forall_forall _ _) Hcols q Hq).
    + intros ->. exact (row_not_col pr (index_In _ _ _ Hpr) Hq).
Qed.

Lemma sink_column (w : grid) (r c pc : Z) (p : pins) :
  index col c = Some pc -> world_get w r c = Some true -> row_active r p ->
  cell_lit w r c (digitalWrite (DigitalWrite pc LOW) p).
Proof.
  intros Hpc Hcell (pr & Hpr & Hhigh & Hothers & Hcols).
  assert (Hne : pr <> pc).
  { intros ->. exact (row_not_col pc (index_In _ _ _ Hpr) (index_In _ _ _ Hpc)). }
  exists pr, pc. split; [exact Hpr|]. split; [exact Hpc|].
  split; [exact Hcell|]. split; [|split; [|split]].
  - rewrite digitalWrite_other by exact Hne. exact Hhigh.
  - intros q Hq Hq'. rewrite digitalWrite_other; [exact (Hothers q Hq Hq')|].
    intros ->. exact (row_not_col pc Hq (index_In _ _ _ Hpc)).
  - apply digitalWrite_same.
  - intros q Hq Hq'. rewrite digitalWrite_other by exact Hq'.
    exact (proj1 (List.Forall_forall _ _) Hcols q Hq).
Qed.

Lemma release_column_lit (w : grid) (r c pc : Z) (p : pins) :
  index col c = Some pc -> cell_lit w r c p ->
  row_active r (digitalWrite (DigitalWrite pc HIGH) p).
Proof.
  intros Hpc (pr & pc' & Hpr & Hpc' & _ & Hhigh & Hothers & _ & Hcols).
  assert (pc' = pc) by congruence. subst pc'.
  assert (Hne : pr <> pc).
  { intros ->. exact (row_not_col pc (index_In _ _ _ Hpr) (index_In _ _ _ Hpc)). }
  exists pr. split; [exact Hpr|]. split; [|split].
  - rewrite digitalWrite_other by exact Hne. exact Hhigh.
  - intros q Hq Hq'. rewrite digitalWrite_other; [exact (Hothers q Hq Hq')|].
    intros ->. exact (row_not_col pc Hq (index_In _ _ _ Hpc)).
  - apply List.Forall_forall. intros q Hq.
    destruct (Z.eq_dec q pc) as [->|Hq'].
    + apply digitalWrite_same.
    + rewrite digitalWrite_other by exact Hq'. exact (Hcols q Hq Hq').
Qed.

Lemma release_column_dark (r c pc : Z) (p : pins) :
  index col c = Some pc -> row_active r p ->
  row_active r (digitalWrite (DigitalWrite pc HIGH) p).
Proof.
  intros Hpc (pr & Hpr & Hhigh & Hothers & Hcols).
  assert (Hne : pr <> pc).
  { intros ->. exact (row_not_col pc (index_In _ _ _ Hpr) (index_In _ _ _ Hpc)). }
  exists pr. split; [exact Hpr|]. split; [|split].
  - rewrite digitalWrite_other by exact Hne. exact Hhigh.
  - intros q Hq Hq'. rewrite digitalWrite_other; [exact (Hothers q Hq Hq')|].
    intros ->. exact (row_not_col pc Hq (index_In _ _ _ Hpc)).
  - apply List.Forall_forall. intros q Hq.
    destruct (Z.eq_dec q pc) as [->|Hq'].
    + apply digitalWrite_same.
    + rewrite digitalWrite_other by exact Hq'.
      exact (proj1 (List.Forall_forall _ _) Hcols q Hq).
Qed.

Lemma deactivate_row (r pr : Z) (p : pins) :
  index row r = Some pr -> row_active r p ->
  idle (digitalWrite (DigitalWrite pr LOW) p).
Proof.
  intros Hpr (pr' & Hpr' & _ & Hothers & Hcols).
  assert (pr' = pr) by congruence. subst pr'. split.
  - apply List.Forall_forall. intros q Hq.
    destruct (Z.eq_dec q pr) as [->|Hq'].
    + apply digitalWrite_same.
    + rewrite digitalWrite_other by exact Hq'. exact (Hothers q Hq Hq').
  - apply List.Forall_forall. intros q Hq. rewrite digitalWrite_other.
    + exact (proj1 (List.Forall_forall _ _) Hcols q Hq).
    + intros ->. exact (row_not_col pr (index_In _ _ _ Hpr) Hq).
Qed.

(** *** The configurations are safe *)

Lemma row_active_only (r r' pr' : Z) (p : pins) :
  row_active r p -> index row r' = Some pr' -> p pr' = HIGH -> r' = r.
Proof.
  intros (pr & Hpr & _ & Hothers & _) Hpr' Hhigh.
  destruct (Z.eq_dec pr' pr) as [->|Hne].
  - exact (index_NoDup_inj row r' r pr row_NoDup Hpr' Hpr).
  - rewrite (Hothers pr' (index_In _ _ _ Hpr') Hne) in Hhigh. discriminate.
Qed.

Lemma cell_lit_row_active_weak (w : grid) (r c r' pr' : Z) (p : pins) :
  cell_lit w r c p -> index row r' = Some pr' -> p pr' = HIGH -> r' = r.
Proof.
  intros (pr & pc & Hpr & _ & _ & _ & Hothers & _) Hpr' Hhigh.
  destruct (Z.eq_dec pr' pr) as [->|Hne].
  - exact (index_NoDup_inj row r' r pr row_NoDup Hpr' Hpr).
  - rewrite (Hothers pr' (index_In _ _ _ Hpr') Hne) in Hhigh. discriminate.
Qed.

Lemma scan_phase_safe (w : grid) (p : pins) :
  scan_phase w p -> display_safe w p.
Proof.
  intros [[Hrows Hcols] | [[r Hact] | (r & c & Hlit)]].
  - assert (Hlow : forall r pr, index row r = Some pr -> p pr = HIGH -> False).
    { intros r pr Hpr Hhigh.
      rewrite (proj1 (List.Forall_forall _ _) Hrows pr (index_In _ _ _ Hpr))
        in Hhigh. discriminate. }
    split; [|split].
    + intros r r' pr pr' Hpr _ Hhigh _. destruct (Hlow r pr Hpr Hhigh).
    + intros _. exact Hcols.
    + intros r c (pr & pc & Hpr & _ & Hhigh & _). destruct (Hlow r pr Hpr Hhigh).
  - split; [|split].
    + intros r1 r2 pr1 pr2 H1 H2 Hh1 Hh2.
      rewrite (row_active_only r r1 pr1 p Hact H1 Hh1).
      rewrite (row_active_only r r2 pr2 p Hact H2 Hh2). reflexivity.
    + intros _. destruct Hact as (_ & _ & _ & _ & Hcols). exact Hcols.
    + intros r' c (pr & pc & _ & Hpc & _ & Hlow).
      destruct Hact as (_ & _ & _ & _ & Hcols).
      rewrite (proj1 (List.Forall_forall _ _) Hcols pc (index_In _ _ _ Hpc))
        in Hlow. discriminate.
  - split; [|split].
    + intros r1 r2 pr1 pr2 H1 H2 Hh1 Hh2.
      rewrite (cell_lit_row_active_weak w r c r1 pr1 p Hlit H1 Hh1).
      rewrite (cell_lit_row_active_weak w r c r2 pr2 p Hlit H2 Hh2).
      reflexivity.
    + intros Hrows. destruct Hlit as (pr & pc & Hpr & _ & _ & Hhigh & _).
      rewrite (proj1 (List.Forall_forall _ _) Hrows pr (index_In _ _ _ Hpr))
        in Hhigh. discriminate.
    + intros r' c' (pr' & pc' & Hpr' & Hpc' & Hhigh' & Hlow').
      rewrite (cell_lit_row_active_weak w r c r' pr' p Hlit Hpr' Hhigh').
      destruct Hlit as (pr & pc & Hpr & Hpc & Hcell & _ & _ & _ & Hcols).
      destruct (Z.eq_dec pc' pc) as [->|Hne].
      * rewrite (index_NoDup_inj col c' c pc col_NoDup Hpc' Hpc). exact Hcell.
      * rewrite (Hcols pc' (index_In _ _ _ Hpc') Hne) in Hlow'. discriminate.
Qed.

(** *** The loops *)

Lemma column_write_safe (p : pins) (c pc : Z) :
  index col c = Some pc -> activation_safe p (DigitalWrite pc HIGH).
Proof.
  intros Hpc Hrow. destruct (row_not_col pc Hrow (index_In _ _ _ Hpc)).
Qed.

Lemma scan_cell_spec (w : grid) (p0 : pins) (r c : Z) (out : list event) :
  well_formed w -> 0 <= r < ROWS -> 0 <= c < COLS ->
  trace_ok (scan_phase w) activation_safe p0 out ->
  row_active r (run out p0) ->
  exists out',
    scan_cell w r c out = Some out' /\
    trace_ok (scan_phase w) activation_safe p0 out' /\
    row_active r (run out' p0).
Proof.
  intros Hwf Hr Hc Hok Hact.
  destruct (world_get_in_range w r c Hwf Hr Hc) as [cell Hcell].
  destruct (col_pin_in_range c Hc) as [pc Hpc].
  unfold scan_cell. rewrite Hcell. cbn [mbind option_bind]. rewrite Hpc.
  cbn [mbind option_bind]. destruct cell.
  - assert (Hlit := sink_column w r c pc _ Hpc Hcell Hact).
    assert (Hok1 : trace_ok (scan_phase w) activation_safe p0
                     (out ++ [DigitalWrite pc LOW])).
    { apply trace_ok_snoc; [exact Hok | |].
      - intros Hrow. destruct (row_not_col pc Hrow (index_In _ _ _ Hpc)).
      - right; right. exists r, c. exact Hlit. }
    rewrite <- run_snoc in Hlit.
    assert (Hact1 := release_column_lit w r c pc _ Hpc Hlit).
    eexists. split; [reflexivity|]. split.
    + apply trace_ok_snoc;
        [exact Hok1 | exact (column_write_safe _ c pc Hpc) |].
      right; left. exists r. exact Hact1.
    + rewrite run_snoc. exact Hact1.
  - assert (Hact1 := release_column_dark r c pc _ Hpc Hact).
    eexists. split; [reflexivity|]. split.
    + apply trace_ok_snoc;
        [exact Hok | exact (column_write_safe _ c pc Hpc) |].
      right; left. exists r. exact Hact1.
    + rewrite run_snoc. exact Hact1.
Qed.

Lemma scan_row_spec (w : grid) (p0 : pins) (r : Z) (out : list event) :
  well_formed w -> 0 <= r < ROWS ->
  trace_ok (scan_phase w) activation_safe p0 out ->
  idle (run out p0) ->
  exists out',
    scan_row w r out = Some out' /\
    trace_ok (scan_phase w) activation_safe p0 out' /\
    idle (run out' p0).
Proof.
  intros Hwf Hr Hok Hidle.
  destruct (row_pin_in_range r Hr) as [pr Hpr].
  unfold scan_row. rewrite Hpr. cbn [mbind option_bind].
  assert (Hact := activate_row r pr _ Hpr Hidle).
  assert (Hok1 : trace_ok (scan_phase w) activation_safe p0
                   (out ++ [DigitalWrite pr HIGH])).
  { apply trace_ok_snoc; [exact Hok | intros _; exact Hidle |].
    right; left. exists r. exact Hact. }
  rewrite <- run_snoc in Hact.
  destruct (for_lt_inv
    (fun _ o => trace_ok (scan_phase w) activation_safe p0 o /\
                row_active r (run o p0))
    (scan_cell w r) 0 COLS (out ++ [DigitalWrite pr HIGH]))
    as (out2 & Hrun & Hok2 & Hact2).
  - unfold COLS. lia.
  - split; assumption.
  - intros c o Hc [Ho Ha].
    destruct (scan_cell_spec w p0 r c o Hwf Hr Hc Ho Ha) as (o' & ? & ? & ?).
    exists o'. auto.
  - rewrite Hrun. cbn [mbind option_bind].
    assert (Hidle2 := deactivate_row r pr _ Hpr Hact2).
    eexists. split; [reflexivity|]. split.
    + apply trace_ok_snoc; [exact Hok2 | |].
      * intros _. destruct Hact2 as (_ & _ & _ & _ & Hcols). exact Hcols.
      * left. exact Hidle2.
    + rewrite run_snoc. exact Hidle2.
Qed.

Lemma dispWorld_from_spec (w : grid) (p0 : pins) (out : list event) :
  well_formed w ->
  trace_ok (scan_phase w) activation_safe p0 out ->
  idle (run out p0) ->
  exists out',
    dispWorld_from w out = Some out' /\
    trace_ok (scan_phase w) activation_safe p0 out' /\
    idle (run out' p0).
Proof.
  intros Hwf Hok Hidle. unfold dispWorld_from.
  apply (for_lt_inv
    (fun _ o => trace_ok (scan_phase w) activation_safe p0 o /\
                idle (run o p0))).
  - unfold ROWS. lia.
  - split; assumption.
  - intros r o Hr [Ho Hi].
    destruct (scan_row_spec w p0 r o Hwf Hr Ho Hi) as (o' & ? & ? & ?).
    exists o'. auto.
Qed.

(** C8.  On a board whose sixteen matrix pins are distinct, for any
    well-formed grid and from pin levels with every row line LOW and every
    column line HIGH, one invocation of [dispWorld] produces a sequence of
    writes such that, after every prefix of it, no two row lines are HIGH
    together, all column lines are HIGH whenever no row line is HIGH, and a
    cell is lit (row line HIGH, column line LOW) only if it is alive; a row
    line is driven HIGH only when all row lines are LOW and all column lines
    HIGH, and driven LOW only when all column lines are HIGH; and the
    invocation ends with all lines off again. *)
Theorem dispWorld_scan_safe (w : grid) (p0 : pins) :
  well_formed w -> idle p0 ->
  exists tr,
    dispWorld w = Some tr /\
    (forall pre suf, tr = pre ++ suf -> display_safe w (run pre p0)) /\
    (forall pre e suf, tr = pre ++ e :: suf ->
       activation_safe (run pre p0) e) /\
    idle (run tr p0).
Proof.
  intros Hwf Hidle.
  destruct (dispWorld_from_spec w p0 [] Hwf) as (tr & Hrun & [HG HT] & Hend).
  - apply trace_ok_nil. left. exact Hidle.
  - exact Hidle.
  - exists tr. split; [exact Hrun|]. split; [|split].
    + intros pre suf Heq. apply scan_phase_safe. exact (HG pre suf Heq).
    + exact HT.
    + exact Hend.
Qed.


End Display.

Lemma mega2560_pins_distinct : NoDup (@row mega2560 ++ @col mega2560).
Proof. apply (bool_decide_unpack _). vm_compute. exact I. Qed.

Lemma mega2560_lines_off_idle : @idle mega2560 (@lines_off mega2560).
Proof. split; repeat constructor. Qed.

Lemma dispWorld_scan_safe_witness :
  exists tr,
    @dispWorld mega2560 (grid_of glider) = Some tr /\
    (forall pre suf, tr = pre ++ suf ->
       @display_safe mega2560 (grid_of glider) (run pre (@lines_off mega2560))) /\
    (forall pre e suf, tr = pre ++ e :: suf ->
       @activation_safe mega2560 (run pre (@lines_off mega2560)) e) /\
    @idle mega2560 (run tr (@lines_off mega2560)).
Proof.
  apply (@dispWorld_scan_safe mega2560 mega2560_pins_distinct).
  - apply well_formedb_spec. vm_compute. reflexivity.
  - exact mega2560_lines_off_idle.
Defined.

(** * Further properties of the sketch *)

(** ** Neighbor counter outside the grid *)

(** X1.  For a positive array size [n], the conditional expression
    [i >= 0 ? i % n : n - 1] equals [i mod n] exactly when [i >= -1] or
    [i + 1] is a multiple of [n]: it wraps correctly one step below zero
    and at any distance above the size, but not two or more steps below. *)
Theorem wrap_is_mod_iff (i n : Z) :
  0 < n -> (wrap i n = i mod n <-> -1 <= i \/ (i + 1) mod n = 0).
Proof.
  intros Hn. split.
  - intros H. destruct (Z_le_gt_dec (-1) i) as [Hi|Hi]; [left; exact Hi|].
    right. unfold wrap in H. destruct (Z.leb_spec 0 i); [lia|].
    pose proof (Z.div_mod i n ltac:(lia)) as Hd. rewrite <- H in Hd.
    replace (i + 1) with ((i / n + 1) * n) by lia.
    apply Z.mod_mul. lia.
  - intros [Hi|Hi]; [apply wrap_mod; assumption|].
    unfold wrap. destruct (Z.leb_spec 0 i).
    + apply Z.rem_mod_nonneg; lia.
    + pose proof (Z.div_mod (i + 1) n ltac:(lia)) as Hd. rewrite Hi in Hd.
      apply (Z.mod_unique i n ((i + 1) / n - 1) (n - 1)); lia.
Qed.

Lemma wrap_is_mod_iff_witness :
  wrap (-2) 8 = (-2) mod 8 <-> -1 <= -2 \/ (-2 + 1) mod 8 = 0.
Proof. apply (wrap_is_mod_iff (-2) 8). lia. Defined.

Lemma torus_neighbors_mod (r c : Z) :
  torus_neighbors (r mod ROWS) (c mod COLS) = torus_neighbors r c.
Proof.
  unfold torus_neighbors, ROWS, COLS.
  rewrite !Zminus_mod_idemp_l, !Zplus_mod_idemp_l, !Z.mod_mod by lia.
  reflexivity.
Qed.

(** X2.  For coordinates that are not negative and small enough for the
    loop counters not to overflow, in or out of the grid, [countNeighbors]
    returns what it returns at the coordinates reduced modulo 8. *)
Theorem countNeighbors_periodic (w : grid) (r c : Z) :
  0 <= r -> r + 2 <= INT_MAX -> 0 <= c -> c + 2 <= INT_MAX ->
  countNeighbors w r c = countNeighbors w (r mod ROWS) (c mod COLS).
Proof.
  intros Hr _ Hc _.
  rewrite (countNeighbors_torus w r c Hr Hc).
  rewrite countNeighbors_torus, torus_neighbors_mod.
  - reflexivity.
  - apply Z.mod_pos_bound. unfold ROWS. lia.
  - apply Z.mod_pos_bound. unfold COLS. lia.
Qed.

Lemma countNeighbors_periodic_witness :
  countNeighbors (grid_of glider) 9 18 =
    countNeighbors (grid_of glider) (9 mod ROWS) (18 mod COLS).
Proof.
  apply (countNeighbors_periodic (grid_of glider) 9 18);
    unfold INT_MAX; lia.
Defined.

(** ** Which cells the count depends on *)

Lemma live_among_acc (w : grid) (ps : list (Z * Z)) (acc d : Z) :
  live_among w ps (acc + d) = (fun n => n + d) <$> live_among w ps acc.
Proof.
  revert acc. induction ps as [|[a b] ps IH]; intros acc; [reflexivity|].
  cbn [live_among]. destruct (world_get w a b) as [cell|]; [cbn|reflexivity].
  replace (acc + d + bool_to_int cell) with (acc + bool_to_int cell + d)
    by lia.
  apply IH.
Qed.

Lemma live_among_write (w w' : grid) (y x : Z) (old v : bool)
    (ps : list (Z * Z)) (acc : Z) :
  NoDup ps ->
  world_get w y x = Some old -> world_set w y x v = Some w' ->
  live_among w' ps acc =
    (n ← live_among w ps acc;
     Some (if bool_decide ((y, x) ∈ ps)
           then n - bool_to_int old + bool_to_int v else n)).
Proof.
  intros Hnd Hold Hset. revert acc.
  induction ps as [|[a b] ps IH]; intros acc; [reflexivity|].
  apply NoDup_cons in Hnd as [Hnotin Hnd]. cbn [live_among].
  destruct (decide ((a, b) = (y, x))) as [Heq|Hne].
  - inversion Heq; subst a b.
    rewrite (world_get_set_same _ _ _ _ _ Hset), Hold. cbn [mbind option_bind].
    rewrite (live_among_ext w w' ps).
    + rewrite bool_decide_eq_true_2 by (left; reflexivity).
      rewrite !live_among_acc.
      destruct (live_among w ps acc) as [n|]; [cbn|reflexivity].
      f_equal. lia.
    + intros [a b] Hin. cbn [fst snd].
      apply (world_get_set_other _ _ _ _ _ _ _ Hset).
      intros Heq'. inversion Heq'; subst a b.
      apply Hnotin, list_elem_of_In, Hin.
  - rewrite (world_get_set_other _ _ _ _ _ _ _ Hset Hne).
    destruct (world_get w a b) as [cell|]; [cbn|reflexivity].
    rewrite (IH Hnd).
    rewrite (bool_decide_ext ((y, x) ∈ (a, b) :: ps) ((y, x) ∈ ps));
      [reflexivity|].
    rewrite elem_of_cons. split; [|tauto]. intros [Heq|Hin]; [|exact Hin].
    destruct Hne. symmetry. exact Heq.
Qed.

(** X3.  Writing a cell changes the neighbour count of an in-bounds cell
    [(r, c)] only if the written cell is one of its eight torus neighbours,
    and then by exactly the difference between the new and the old value:
    every neighbour is counted once and no other cell is counted at all. *)
Theorem countNeighbors_after_write (w w' : grid) (r c y x : Z)
    (old v : bool) :
  0 <= r < ROWS -> 0 <= c < COLS ->
  world_get w y x = Some old -> world_set w y x v = Some w' ->
  countNeighbors w' r c =
    (n ← countNeighbors w r c;
     Some (if bool_decide ((y, x) ∈ torus_neighbors r c)
           then n - bool_to_int old + bool_to_int v else n)).
Proof.
  intros Hr Hc Hold Hset. rewrite !countNeighbors_torus by lia.
  apply (live_among_write w w' y x old v); [|exact Hold | exact Hset].
  apply torus_neighbors_NoDup; assumption.
Qed.

Lemma countNeighbors_after_write_witness :
  exists w',
    world_set (grid_of glider) 7 7 true = Some w' /\
    countNeighbors w' 0 0 =
      (n ← countNeighbors (grid_of glider) 0 0;
       Some (if bool_decide ((7, 7) ∈ torus_neighbors 0 0)
             then n - bool_to_int false + bool_to_int true else n)).
Proof.
  destruct (world_set (grid_of glider) 7 7 true) as [w'|] eqn:Hset;
    [|vm_compute in Hset; discriminate].
  exists w'. split; [reflexivity|].
  apply (countNeighbors_after_write (grid_of glider) w' 0 0 7 7 false true).
  - unfold ROWS. lia.
  - unfold COLS. lia.
  - vm_compute. reflexivity.
  - exact Hset.
Defined.

(** ** The rule engine and the symmetry of the torus *)

Lemma updateWorld_spec (w : grid) :
  well_formed w ->
  exists w',
    updateWorld w = Some w' /\ well_formed w' /\
    forall r c, 0 <= r < ROWS -> 0 <= c < COLS ->
      world_get w' r c = transition w r c.
Proof.
  intros Hwf.
  destruct (compute_phase_spec w all_false Hwf all_false_well_formed)
    as ([w1 next] & Hrun1 & Hw1 & Hwfn & Hnext).
  cbn [f_world f_nextWorld] in Hw1, Hwfn, Hnext. subst w1.
  destruct (commit_phase_spec w next Hwf Hwfn)
    as ([w' next'] & Hrun2 & Hn2 & Hwf' & Hcopy).
  cbn [f_world f_nextWorld] in Hn2, Hwf', Hcopy. subst next'.
  exists w'. split; [|split; [exact Hwf'|]].
  - unfold updateWorld. rewrite Hrun1. cbn. rewrite Hrun2. reflexivity.
  - intros r c Hr Hc. rewrite Hcopy, Hnext by assumption. reflexivity.
Qed.

Lemma grid_from_well_formed (f : Z -> Z -> bool) : well_formed (grid_from f).
Proof. apply well_formedb_spec. reflexivity. Qed.

Lemma world_get_grid_from (f : Z -> Z -> bool) (r c : Z) :
  0 <= r < ROWS -> 0 <= c < COLS -> world_get (grid_from f) r c = Some (f r c).
Proof. intros Hr Hc. each_index r; each_index c; reflexivity. Qed.

Lemma world_get_shift (dy dx : Z) (w : grid) (r c : Z) :
  well_formed w -> 0 <= r < ROWS -> 0 <= c < COLS ->
  world_get (shift dy dx w) r c =
    world_get w ((r - dy) mod ROWS) ((c - dx) mod COLS).
Proof.
  intros Hwf Hr Hc. unfold shift. rewrite world_get_grid_from by assumption.
  destruct (world_get_in_range w ((r - dy) mod ROWS) ((c - dx) mod COLS) Hwf)
    as [b Hb].
  - apply Z.mod_pos_bound. unfold ROWS. lia.
  - apply Z.mod_pos_bound. unfold COLS. lia.
  - rewrite Hb. reflexivity.
Qed.

Lemma mod8_shift_pred (a d : Z) :
  ((a - d) mod 8 - 1) mod 8 = ((a - 1) mod 8 - d) mod 8.
Proof. rewrite !Zminus_mod_idemp_l. f_equal. lia. Qed.

Lemma mod8_shift_self (a d : Z) :
  ((a - d) mod 8) mod 8 = (a mod 8 - d) mod 8.
Proof. rewrite Z.mod_mod by lia. rewrite Zminus_mod_idemp_l. reflexivity. Qed.

Lemma mod8_shift_succ (a d : Z) :
  ((a - d) mod 8 + 1) mod 8 = ((a + 1) mod 8 - d) mod 8.
Proof.
  rewrite Zplus_mod_idemp_l, Zminus_mod_idemp_l. f_equal. lia.
Qed.

Lemma torus_neighbors_shift (dy dx r c : Z) :
  torus_neighbors ((r - dy) mod ROWS) ((c - dx) mod COLS) =
    map (fun p => ((fst p - dy) mod ROWS, (snd p - dx) mod COLS))
        (torus_neighbors r c).
Proof.
  unfold torus_neighbors, ROWS, COLS. cbn [map fst snd].
  rewrite !mod8_shift_pred, !mod8_shift_self, !mod8_shift_succ.
  reflexivity.
Qed.

Lemma live_among_shift (dy dx : Z) (w : grid) (ps : list (Z * Z)) (acc : Z) :
  well_formed w -> Forall in_bounds ps ->
  live_among (shift dy dx w) ps acc =
    live_among w
      (map (fun p => ((fst p - dy) mod ROWS, (snd p - dx) mod COLS)) ps) acc.
Proof.
  intros Hwf. revert acc. induction ps as [|[y x] ps IH]; intros acc Hall;
    [reflexivity|].
  apply Forall_cons in Hall as [[Hy Hx] Hall]. cbn [fst snd] in Hy, Hx.
  cbn [live_among map fst snd].
  rewrite world_get_shift by (unfold ROWS, COLS; first [assumption | lia]).
  destruct (world_get w ((y - dy) mod ROWS) ((x - dx) mod COLS));
    [cbn|reflexivity].
  apply IH. exact Hall.
Qed.

Lemma transition_shift (dy dx : Z) (w : grid) (r c : Z) :
  well_formed w -> 0 <= r < ROWS -> 0 <= c < COLS ->
  transition (shift dy dx w) r c =
    transition w ((r - dy) mod ROWS) ((c - dx) mod COLS).
Proof.
  intros Hwf Hr Hc. unfold transition.
  rewrite world_get_shift by assumption.
  rewrite (countNeighbors_torus (shift dy dx w) r c) by lia.
  rewrite (countNeighbors_torus w).
  - rewrite torus_neighbors_shift, live_among_shift;
      [reflexivity | exact Hwf | apply torus_neighbors_in_bounds].
  - apply Z.mod_pos_bound. unfold ROWS. lia.
  - apply Z.mod_pos_bound. unfold COLS. lia.
Qed.

Lemma updateWorld_shift (dy dx : Z) (w : grid) :
  well_formed w ->
  updateWorld (shift dy dx w) = shift dy dx <$> updateWorld w.
Proof.
  intros Hwf.
  destruct (updateWorld_spec w Hwf) as (w' & Hw' & Hwf' & Hcells).
  destruct (updateWorld_spec (shift dy dx w) (grid_from_well_formed _))
    as (w1 & Hw1 & Hwf1 & Hcells1).
  rewrite Hw', Hw1. cbn. f_equal.
  apply grid_ext; [exact Hwf1 | apply grid_from_well_formed |].
  intros r c Hr Hc.
  rewrite Hcells1, transition_shift, world_get_shift by assumption.
  symmetry. apply Hcells.
  - apply Z.mod_pos_bound. unfold ROWS. lia.
  - apply Z.mod_pos_bound. unfold COLS. lia.
Qed.

Lemma generations_well_formed (k : nat) (w : grid) :
  well_formed w -> exists w', generations k w = Some w' /\ well_formed w'.
Proof.
  revert w. induction k as [|k IH]; intros w Hwf.
  - exists w. split; [reflexivity | exact Hwf].
  - destruct (updateWorld_spec w Hwf) as (w1 & Hw1 & Hwf1 & _).
    destruct (IH w1 Hwf1) as (w' & Hw' & Hwf').
    exists w'. cbn [generations]. rewrite Hw1. cbn. auto.
Qed.

(** X4.  The rule engine has no distinguished origin: moving a well-formed
    grid by any [(dy, dx)] on the torus and then calling [updateWorld], once
    or any number of times, gives the grid obtained by calling it first and
    moving the result. *)
Theorem updateWorld_commutes_with_shift (dy dx : Z) (k : nat) (w : grid) :
  well_formed w ->
  updateWorld (shift dy dx w) = shift dy dx <$> updateWorld w /\
  generations k (shift dy dx w) = shift dy dx <$> generations k w.
Proof.
  intros Hwf. split; [apply updateWorld_shift; exact Hwf|].
  revert w Hwf. induction k as [|k IH]; intros w Hwf; [reflexivity|].
  cbn [generations]. rewrite updateWorld_shift by exact Hwf.
  destruct (updateWorld_spec w Hwf) as (w1 & Hw1 & Hwf1 & _).
  rewrite Hw1. cbn. apply IH. exact Hwf1.
Qed.

Lemma updateWorld_commutes_with_shift_witness :
  updateWorld (shift 3 (-2) (grid_of glider)) =
    shift 3 (-2) <$> updateWorld (grid_of glider).
Proof.
  apply (updateWorld_commutes_with_shift 3 (-2) 1 (grid_of glider)).
  apply well_formedb_spec. vm_compute. reflexivity.
Defined.

(** ** Loops that may fail: what every completed run preserves *)

Lemma iter_from_preserves {S : Type} (P : S -> Prop)
    (body : Z -> S -> option S) (n : nat) (i : Z) (s s' : S) :
  (forall j x x', body j x = Some x' -> P x -> P x') ->
  iter_from n i body s = Some s' -> P s -> P s'.
Proof.
  intros Hbody. revert i s. induction n as [|n IH]; intros i s Hrun Hs.
  - inversion Hrun. subst s'. exact Hs.
  - cbn [iter_from] in Hrun. destruct (body i s) as [x|] eqn:Hx;
      [cbn in Hrun|discriminate].
    exact (IH (i + 1) x Hrun (Hbody i s x Hx Hs)).
Qed.

Lemma for_lt_preserves {S : Type} (P : S -> Prop)
    (body : Z -> S -> option S) (lo hi : Z) (s s' : S) :
  (forall j x x', body j x = Some x' -> P x -> P x') ->
  for_lt lo hi body s = Some s' -> P s -> P s'.
Proof. unfold for_lt. apply iter_from_preserves. Qed.

Lemma run_untouched (tr : list event) (p : pins) (q : Z) :
  Forall (fun e => event_pin e <> q) tr -> run tr p q = p q.
Proof.
  revert p. induction tr as [|[pin v] tr IH]; intros p Hall; [reflexivity|].
  apply Forall_cons in Hall as [Hne Hall]. cbn [event_pin] in Hne.
  change (run (DigitalWrite pin v :: tr) p)
    with (run tr (digitalWrite (DigitalWrite pin v) p)).
  rewrite (IH _ Hall). apply digitalWrite_other. congruence.
Qed.

Section Startup.
Context {board : Board}.
Hypothesis pins_distinct : NoDup (row ++ col).

Lemma matrix_pin_row (r pr : Z) : index row r = Some pr -> matrix_pin pr.
Proof.
  intros H. apply in_or_app. left. exact (index_In _ _ _ H).
Qed.

Lemma matrix_pin_col (c pc : Z) : index col c = Some pc -> matrix_pin pc.
Proof.
  intros H. apply in_or_app. right. exact (index_In _ _ _ H).
Qed.


Lemma untouched_outside_matrix (tr : list event) (p : pins) (q : Z) :
  Forall (fun e => matrix_pin (event_pin e)) tr ->
  ~ matrix_pin q -> run tr p q = p q.
Proof.
  intros Hall Hq. apply run_untouched.
  eapply Forall_impl; [exact Hall|]. intros e He Heq. apply Hq.
  rewrite <- Heq. exact He.
Qed.

Lemma fill_world_spec (rnd : nat -> Z) :
  exists st,
    fill_world rnd = Some st /\ fst st = 64%nat /\ well_formed (snd st) /\
    forall i j, 0 <= i < ROWS -> 0 <= j < COLS ->
      world_get (snd st) i j = Some (random_cell rnd (COLS * i + j)).
Proof.
  destruct (scan_inv
    (fun r c (st : nat * grid) =>
       fst st = Z.to_nat (COLS * r + c) /\ well_formed (snd st) /\
       forall y x, scanned r c y x ->
         world_get (snd st) y x = Some (random_cell rnd (COLS * y + x)))
    (fill_cell rnd) (0%nat, all_false)) as (st & Hrun & Hk & Hwf & Hcells).
  - cbn. split; [reflexivity|]. split; [exact all_false_well_formed|].
    unfold scanned. intros y x H. lia.
  - intros r st Hr (Hk & Hwf & Hcells). split; [|split; [exact Hwf|]].
    + rewrite Hk. f_equal. unfold COLS. lia.
    + intros y x H. apply Hcells, scanned_next_row, H.
  - intros r c [k w] Hr Hc (Hk & Hwf & Hcells). cbn [fst snd] in *.
    destruct (world_set_in_range w r c (negb (rnd k =? 0)) Hwf Hr Hc)
      as (w' & Hw').
    exists (Datatypes.S k, w'). unfold fill_cell. cbn [fst snd].
    rewrite Hw'. cbn. split; [reflexivity|]. split; [|split].
    + rewrite Hk. unfold COLS in *. lia.
    + exact (world_set_well_formed _ _ _ _ _ Hwf Hw').
    + intros y x Hs. apply scanned_next_cell in Hs as [Heq|Hs]; [| |lia].
      * inversion Heq; subst y x. unfold random_cell. rewrite <- Hk.
        exact (world_get_set_same _ _ _ _ _ Hw').
      * rewrite <- (Hcells y x Hs).
        apply (world_get_set_other _ _ _ _ _ _ _ Hw').
        intros Heq. inversion Heq; subst y x. unfold scanned in Hs. lia.
  - exists st. split; [exact Hrun|]. split; [rewrite Hk; reflexivity|].
    split; [exact Hwf|]. intros i j Hi Hj. apply Hcells, scanned_all; assumption.
Qed.


End Startup.


(** X6.  The random fill of [setup] draws [random] exactly 64 times, in
    row-major order, and cell [(i, j)] of the grid it leaves is alive
    exactly when the draw number [8 i + j] (counting from 0) is not zero. *)
Theorem setup_fills_row_major {board : Board} (rnd : nat -> Z) (p : pins)
    (s : state) :
  setup rnd p = Some s ->
  (exists st, fill_world rnd = Some st /\ fst st = 64%nat /\
              snd st = world s) /\
  forall i j, 0 <= i < ROWS -> 0 <= j < COLS ->
    world_get (world s) i j = Some (random_cell rnd (COLS * i + j)).
Proof.
  intros Hsetup.
  destruct (fill_world_spec rnd) as (st & Hst & Hk & _ & Hcells).
  destruct (@setup_pins_total board) as [tr Htr].
  rewrite (setup_Some rnd p tr st Htr Hst) in Hsetup.
  inversion Hsetup. cbn [world].
  split; [|exact Hcells]. exists st. auto.
Qed.

Lemma setup_fills_row_major_witness :
  exists s,
    @setup mega2560 rnd_lone (fun _ => LOW) = Some s /\
    forall i j, 0 <= i < ROWS -> 0 <= j < COLS ->
      world_get (world s) i j = Some (random_cell rnd_lone (COLS * i + j)).
Proof.
  destruct (@setup_pins_total mega2560) as [tr Htr].
  eexists. split.
  - exact (@setup_Some mega2560 _ _ _ _ Htr fill_world_lone).
  - apply (@setup_fills_row_major mega2560 rnd_lone (fun _ => LOW)).
    exact (@setup_Some mega2560 _ _ _ _ Htr fill_world_lone).
Defined.

(** ** Display driver: what a scan shows and what it leaves behind *)

Section Scan.
Context {board : Board}.
Hypothesis pins_distinct : NoDup (row ++ col).

Lemma scan_cell_matrix_only (w : grid) (r c : Z) (out out' : list event) :
  scan_cell w r c out = Some out' ->
  Forall (fun e => matrix_pin (event_pin e)) out ->
  Forall (fun e => matrix_pin (event_pin e)) out'.
Proof.
  unfold scan_cell. intros H Hout.
  destruct (world_get w r c) as [cell|]; [cbn in H|discriminate].
  destruct (index col c) as [pc|] eqn:Hpc; [cbn in H|discriminate].
  inversion H. assert (Hm := matrix_pin_col c pc Hpc).
  apply Forall_app. split; [|constructor; [exact Hm | constructor]].
  destruct cell; [|exact Hout].
  apply Forall_app. split; [exact Hout|].
  constructor; [exact Hm | constructor].
Qed.

Lemma dispWorld_from_matrix_only (w : grid) (out out' : list event) :
  dispWorld_from w out = Some out' ->
  Forall (fun e => matrix_pin (event_pin e)) out ->
  Forall (fun e => matrix_pin (event_pin e)) out'.
Proof.
  unfold dispWorld_from. apply for_lt_preserves. intros r x x' H Hx.
  unfold scan_row in H.
  destruct (index row r) as [pr|] eqn:Hpr; [cbn in H|discriminate].
  assert (Hm := matrix_pin_row r pr Hpr).
  destruct (for_lt 0 COLS (scan_cell w r) (x ++ [DigitalWrite pr HIGH]))
    as [x1|] eqn:Hx1; [cbn in H|discriminate].
  inversion H. apply Forall_app. split; [|constructor; [exact Hm | constructor]].
  apply (for_lt_preserves _ _ _ _ _ _
           (fun c o o' => scan_cell_matrix_only w r c o o') Hx1).
  apply Forall_app. split; [exact Hx|]. constructor; [exact Hm | constructor].
Qed.

Lemma dispWorld_pins_restored (w : grid) (p0 : pins) :
  well_formed w -> idle p0 ->
  exists tr,
    dispWorld w = Some tr /\
    Forall (fun e => matrix_pin (event_pin e)) tr /\
    idle (run tr p0) /\
    forall q, run tr p0 q = p0 q.
Proof.
  intros Hwf Hidle.
  destruct (dispWorld_from_spec pins_distinct w p0 [] Hwf)
    as (tr & Hrun & _ & [Hrows' Hcols']).
  - apply trace_ok_nil. left. exact Hidle.
  - exact Hidle.
  - assert (Hm : Forall (fun e => matrix_pin (event_pin e)) tr).
    { apply (dispWorld_from_matrix_only w [] tr Hrun). constructor. }
    exists tr. split; [exact Hrun|]. split; [exact Hm|].
    split; [split; assumption|].
    intros q. destruct Hidle as [Hrows Hcols].
    destruct (in_dec Z.eq_dec q (row ++ col)) as [Hin|Hout].
    + apply in_app_or in Hin as [Hin|Hin].
      * rewrite (proj1 (List.Forall_forall _ _) Hrows' q Hin).
        rewrite (proj1 (List.Forall_forall _ _) Hrows q Hin). reflexivity.
      * rewrite (proj1 (List.Forall_forall _ _) Hcols' q Hin).
        rewrite (proj1 (List.Forall_forall _ _) Hcols q Hin). reflexivity.
    + exact (untouched_outside_matrix tr p0 q Hm Hout).
Qed.

(** X7.  On a board whose sixteen matrix pins are distinct, one invocation
    of [dispWorld] on a well-formed grid, started with every row line LOW
    and every column line HIGH, writes to the sixteen matrix pins only and
    leaves every pin of the board at the level it had before the call. *)
Theorem dispWorld_restores_pins (w : grid) (p0 : pins) :
  well_formed w -> idle p0 ->
  exists tr,
    dispWorld w = Some tr /\
    Forall (fun e => matrix_pin (event_pin e)) tr /\
    forall q, run tr p0 q = p0 q.
Proof.
  intros Hwf Hidle.
  destruct (dispWorld_pins_restored w p0 Hwf Hidle) as (tr & H1 & H2 & _ & H3).
  exists tr. auto.
Qed.

Lemma cell_lit_lit (w : grid) (r c : Z) (p : pins) :
  cell_lit w r c p -> lit p r c.
Proof.
  intros (pr & pc & Hpr & Hpc & _ & Hhigh & _ & Hlow & _).
  exists pr, pc. auto.
Qed.

Lemma cell_lit_only (w : grid) (r c r' c' : Z) (p : pins) :
  cell_lit w r c p -> lit p r' c' -> r' = r /\ c' = c.
Proof.
  intros Hlit (pr' & pc' & Hpr' & Hpc' & Hhigh' & Hlow').
  split; [exact (cell_lit_row_active_weak pins_distinct w r c r' pr' p
                   Hlit Hpr' Hhigh')|].
  destruct Hlit as (pr & pc & Hpr & Hpc & _ & _ & _ & _ & Hcols).
  destruct (Z.eq_dec pc' pc) as [->|Hne].
  - exact (index_NoDup_inj col c' c pc (col_NoDup pins_distinct) Hpc' Hpc).
  - rewrite (Hcols pc' (index_In _ _ _ Hpc') Hne) in Hlow'. discriminate.
Qed.

Lemma scan_phase_one_lit (w : grid) (p : pins) (r1 c1 r2 c2 : Z) :
  scan_phase w p -> lit p r1 c1 -> lit p r2 c2 -> r1 = r2 /\ c1 = c2.
Proof.
  intros Hphase H1 H2.
  destruct Hphase as [Hidle | [[r Hact] | (r & c & Hlit)]].
  - destruct H1 as (pr & pc & Hpr & _ & Hhigh & _). destruct Hidle as [Hrows _].
    rewrite (proj1 (List.Forall_forall _ _) Hrows pr (index_In _ _ _ Hpr))
      in Hhigh. discriminate.
  - destruct H1 as (pr & pc & _ & Hpc & _ & Hlow).
    destruct Hact as (_ & _ & _ & _ & Hcols).
    rewrite (proj1 (List.Forall_forall _ _) Hcols pc (index_In _ _ _ Hpc))
      in Hlow. discriminate.
  - destruct (cell_lit_only w r c r1 c1 p Hlit H1) as [-> ->].
    destruct (cell_lit_only w r c r2 c2 p Hlit H2) as [-> ->].
    split; reflexivity.
Qed.

(** X8.  Under the same conditions, at every point of the sequence of
    writes of one invocation of [dispWorld] at most one LED of the matrix is
    lit. *)
Theorem dispWorld_one_led_at_a_time (w : grid) (p0 : pins) :
  well_formed w -> idle p0 ->
  exists tr,
    dispWorld w = Some tr /\
    forall pre suf r1 c1 r2 c2,
      tr = pre ++ suf ->
      lit (run pre p0) r1 c1 -> lit (run pre p0) r2 c2 ->
      r1 = r2 /\ c1 = c2.
Proof.
  intros Hwf Hidle.
  destruct (dispWorld_from_spec pins_distinct w p0 [] Hwf)
    as (tr & Hrun & [HG _] & _).
  - apply trace_ok_nil. left. exact Hidle.
  - exact Hidle.
  - exists tr. split; [exact Hrun|].
    intros pre suf r1 c1 r2 c2 Heq.
    apply (scan_phase_one_lit w). exact (HG pre suf Heq).
Qed.

Lemma lit_before_app (w : grid) (p0 : pins) (r c : Z)
    (out extra : list event) :
  lit_before w p0 r c out -> lit_before w p0 r c (out ++ extra).
Proof.
  intros H y x Hs Halive.
  destruct (H y x Hs Halive) as (pre & suf & -> & Hlit).
  exists pre, (suf ++ extra). split; [symmetry; apply app_assoc | exact Hlit].
Qed.

Lemma scan_cell_lights (w : grid) (p0 : pins) (r c : Z)
    (out out' : list event) :
  0 <= c ->
  row_active r (run out p0) ->
  lit_before w p0 r c out ->
  scan_cell w r c out = Some out' ->
  lit_before w p0 r (c + 1) out'.
Proof.
  intros Hc Hact Hbefore H. unfold scan_cell in H.
  destruct (world_get w r c) as [cell|] eqn:Hcell; [cbn in H|discriminate].
  destruct (index col c) as [pc|] eqn:Hpc; [cbn in H|discriminate].
  inversion H as [Hout]. clear H.
  intros y x Hs Halive. apply scanned_next_cell in Hs as [Heq|Hs]; [| |exact Hc].
  - inversion Heq; subst y x.
    assert (cell = true) by congruence. subst cell.
    exists (out ++ [DigitalWrite pc LOW]), [DigitalWrite pc HIGH].
    split; [reflexivity|]. rewrite run_snoc.
    exact (cell_lit_lit w r c _
             (sink_column pins_distinct w r c pc _ Hpc Hcell Hact)).
  - destruct cell.
    + exact (lit_before_app _ _ _ _ _ _
               (lit_before_app _ _ _ _ _ _ Hbefore) y x Hs Halive).
    + exact (lit_before_app _ _ _ _ _ _ Hbefore y x Hs Halive).
Qed.

Lemma scan_row_lights (w : grid) (p0 : pins) (r : Z) (out : list event) :
  well_formed w -> 0 <= r < ROWS ->
  trace_ok (scan_phase w) activation_safe p0 out ->
  idle (run out p0) ->
  lit_before w p0 r 0 out ->
  exists out',
    scan_row w r out = Some out' /\
    trace_ok (scan_phase w) activation_safe p0 out' /\
    idle (run out' p0) /\
    lit_before w p0 (r + 1) 0 out'.
Proof.
  intros Hwf Hr Hok Hidle Hbefore.
  destruct (row_pin_in_range r Hr) as [pr Hpr].
  unfold scan_row. rewrite Hpr. cbn [mbind option_bind].
  assert (Hact := activate_row pins_distinct r pr _ Hpr Hidle).
  assert (Hok1 : trace_ok (scan_phase w) activation_safe p0
                   (out ++ [DigitalWrite pr HIGH])).
  { apply trace_ok_snoc; [exact Hok | intros _; exact Hidle |].
    right; left. exists r. exact Hact. }
  rewrite <- run_snoc in Hact.
  destruct (for_lt_inv
    (fun c o => trace_ok (scan_phase w) activation_safe p0 o /\
                row_active r (run o p0) /\ lit_before w p0 r c o)
    (scan_cell w r) 0 COLS (out ++ [DigitalWrite pr HIGH]))
    as (out2 & Hrun & Hok2 & Hact2 & Hbefore2).
  - unfold COLS. lia.
  - split; [exact Hok1|]. split; [exact Hact|].
    apply lit_before_app. exact Hbefore.
  - intros c o Hc (Ho & Ha & Hb).
    destruct (scan_cell_spec pins_distinct w p0 r c o Hwf Hr Hc Ho Ha)
      as (o' & Ho' & Hok' & Hact').
    exists o'. split; [exact Ho'|]. split; [exact Hok'|]. split; [exact Hact'|].
    exact (scan_cell_lights w p0 r c o o' ltac:(lia) Ha Hb Ho').
  - rewrite Hrun. cbn [mbind option_bind].
    assert (Hidle2 := deactivate_row pins_distinct r pr _ Hpr Hact2).
    eexists. split; [reflexivity|]. split; [|split].
    + apply trace_ok_snoc; [exact Hok2 | |].
      * intros _. destruct Hact2 as (_ & _ & _ & _ & Hcols). exact Hcols.
      * left. exact Hidle2.
    + rewrite run_snoc. exact Hidle2.
    + apply lit_before_app. intros y x Hs.
      apply Hbefore2, scanned_next_row, Hs.
Qed.

(** X9.  Under the same conditions, every live cell of the grid is lit at
    some point of the sequence of writes of one invocation of [dispWorld]:
    no live cell is skipped by the scan. *)
Theorem dispWorld_lights_every_live_cell (w : grid) (p0 : pins) :
  well_formed w -> idle p0 ->
  exists tr,
    dispWorld w = Some tr /\
    forall r c, world_get w r c = Some true ->
      exists pre suf, tr = pre ++ suf /\ lit (run pre p0) r c.
Proof.
  intros Hwf Hidle.
  destruct (for_lt_inv
    (fun r o => trace_ok (scan_phase w) activation_safe p0 o /\
                idle (run o p0) /\ lit_before w p0 r 0 o)
    (scan_row w) 0 ROWS []) as (tr & Hrun & _ & _ & Hbefore).
  - unfold ROWS. lia.
  - split; [apply trace_ok_nil; left; exact Hidle|]. split; [exact Hidle|].
    intros y x Hs. unfold scanned in Hs. lia.
  - intros r o Hr (Ho & Hi & Hb).
    destruct (scan_row_lights w p0 r o Hwf Hr Ho Hi Hb) as (o' & ? & ? & ? & ?).
    exists o'. auto.
  - exists tr. split; [exact Hrun|]. intros r c Halive.
    destruct (world_get_Some_range w r c true Hwf Halive) as [Hr Hc].
    exact (Hbefore r c (scanned_all r c Hr Hc) Halive).
Qed.

End Scan.

Lemma glider_well_formed : well_formed (grid_of glider).
Proof. apply well_formedb_spec. vm_compute. reflexivity. Qed.

Lemma dispWorld_restores_pins_witness :
  exists tr,
    @dispWorld mega2560 (grid_of glider) = Some tr /\
    Forall (fun e => @matrix_pin mega2560 (event_pin e)) tr /\
    forall q, run tr (@lines_off mega2560) q = @lines_off mega2560 q.
Proof.
  exact (@dispWorld_restores_pins mega2560 mega2560_pins_distinct
           (grid_of glider) lines_off glider_well_formed
           mega2560_lines_off_idle).
Defined.

Lemma dispWorld_one_led_at_a_time_witness :
  exists tr,
    @dispWorld mega2560 (grid_of glider) = Some tr /\
    forall pre suf r1 c1 r2 c2,
      tr = pre ++ suf ->
      @lit mega2560 (run pre (@lines_off mega2560)) r1 c1 ->
      @lit mega2560 (run pre (@lines_off mega2560)) r2 c2 ->
      r1 = r2 /\ c1 = c2.
Proof.
  exact (@dispWorld_one_led_at_a_time mega2560 mega2560_pins_distinct
           (grid_of glider) lines_off glider_well_formed
           mega2560_lines_off_idle).
Defined.

Lemma dispWorld_lights_every_live_cell_witness :
  exists tr,
    @dispWorld mega2560 (grid_of glider) = Some tr /\
    forall r c, world_get (grid_of glider) r c = Some true ->
      exists pre suf,
        tr = pre ++ suf /\ @lit mega2560 (run pre (@lines_off mega2560)) r c.
Proof.
  exact (@dispWorld_lights_every_live_cell mega2560 mega2560_pins_distinct
           (grid_of glider) lines_off glider_well_formed
           mega2560_lines_off_idle).
Defined.

(** ** Scheduler: one iteration and whole runs *)

Lemma ulong_sub_elapsed (t d : Z) :
  0 <= t < 2 ^ 32 -> 0 <= d < 2 ^ 32 ->
  ulong_sub ((t + d) mod 2 ^ 32) t = d.
Proof.
  intros Ht Hd. unfold ulong_sub. rewrite Zminus_mod_idemp_l.
  replace (t + d - t) with d by lia. apply Z.mod_small. exact Hd.
Qed.

Section Run.
Context {board : Board}.
Hypothesis pins_distinct : NoDup (row ++ col).

Lemma loop_not_due (time : Z) (s : state) (tr : list event) :
  (1000 <=? ulong_sub time (lastTime s)) = false ->
  dispWorld (world s) = Some tr ->
  loop time s =
    Some (State (world s) (lastTime s) (paused s) (step s)
                (run tr (out_pins s))).
Proof.
  intros Hdue Htr. unfold loop. rewrite Hdue.
  cbn [mbind option_bind]. rewrite Htr. reflexivity.
Qed.

Lemma loop_step (time : Z) (s : state) :
  well_formed (world s) -> idle (out_pins s) ->
  exists s',
    loop time s = Some s' /\
    paused s' = paused s /\ step s' = step s /\
    well_formed (world s') /\ idle (out_pins s') /\
    (forall q, out_pins s' q = out_pins s q) /\
    (if 1000 <=? ulong_sub time (lastTime s)
     then updateWorld (world s) = Some (world s') /\ lastTime s' = time
     else world s' = world s /\ lastTime s' = lastTime s).
Proof.
  intros Hwf Hidle.
  destruct (1000 <=? ulong_sub time (lastTime s)) eqn:Hdue.
  - destruct (updateWorld_spec (world s) Hwf) as (w' & Hw' & Hwf' & _).
    destruct (dispWorld_pins_restored pins_distinct w' (out_pins s) Hwf' Hidle)
      as (tr & Htr & _ & Hidle' & Hsame).
    eexists. split; [exact (loop_due time s w' tr Hdue Hw' Htr)|].
    cbn [world lastTime paused step out_pins]. auto 10.
  - destruct (dispWorld_pins_restored pins_distinct (world s) (out_pins s)
                Hwf Hidle) as (tr & Htr & _ & Hidle' & Hsame).
    eexists. split; [exact (loop_not_due time s tr Hdue Htr)|].
    cbn [world lastTime paused step out_pins]. auto 10.
Qed.

(** X10.  One iteration of [loop], from a well-formed grid and all lines
    off, [d] milliseconds (less than 2^32) after the last generation:
    it completes, leaves both flags and every pin level as they were, and
    advances the grid by one generation, resetting [lastTime] to the
    current time, exactly when [d >= 1000], also when [millis] has rolled
    over 2^32 in between; otherwise grid and [lastTime] are unchanged. *)
Theorem loop_period_and_rollover (s : state) (d : Z) :
  well_formed (world s) -> idle (out_pins s) ->
  0 <= lastTime s < 2 ^ 32 -> 0 <= d < 2 ^ 32 ->
  exists s',
    loop ((lastTime s + d) mod 2 ^ 32) s = Some s' /\
    paused s' = paused s /\ step s' = step s /\
    well_formed (world s') /\
    (forall q, out_pins s' q = out_pins s q) /\
    (if 1000 <=? d
     then updateWorld (world s) = Some (world s') /\
          lastTime s' = (lastTime s + d) mod 2 ^ 32
     else world s' = world s /\ lastTime s' = lastTime s).
Proof.
  intros Hwf Hidle Ht Hd.
  destruct (loop_step ((lastTime s + d) mod 2 ^ 32) s Hwf Hidle)
    as (s' & Hrun & Hp & Hst & Hwf' & _ & Hpins & Hdue).
  rewrite (ulong_sub_elapsed (lastTime s) d Ht Hd) in Hdue.
  exists s'. auto 10.
Qed.

Lemma exec_run (inputs : list input) (s : state) :
  well_formed (world s) -> idle (out_pins s) ->
  exists s',
    exec inputs s = Some s' /\
    well_formed (world s') /\ idle (out_pins s') /\
    (forall q, out_pins s' q = out_pins s q) /\
    generations (generations_due inputs (lastTime s)) (world s)
      = Some (world s').
Proof.
  revert s. induction inputs as [|i inputs IH]; intros s Hwf Hidle.
  - exists s. cbn. auto.
  - destruct i as [time| |]; cbn [exec react generations_due].
    + destruct (loop_step time s Hwf Hidle)
        as (s1 & Hrun & _ & _ & Hwf1 & Hidle1 & Hpins1 & Hdue).
      destruct (IH s1 Hwf1 Hidle1) as (s' & Hrun' & Hwf' & Hidle' & Hpins' & Hgen).
      exists s'. rewrite Hrun. cbn [mbind option_bind].
      split; [exact Hrun'|]. split; [exact Hwf'|]. split; [exact Hidle'|].
      split; [intros q; rewrite Hpins'; apply Hpins1|].
      change ((time - lastTime s) mod 2 ^ 32)
        with (ulong_sub time (lastTime s)).
      destruct (1000 <=? ulong_sub time (lastTime s)).
      * destruct Hdue as [Hw1 Ht1]. cbn [generations]. rewrite Hw1.
        cbn [mbind option_bind]. rewrite <- Ht1. exact Hgen.
      * destruct Hdue as [Hw1 Ht1]. rewrite <- Hw1, <- Ht1. exact Hgen.
    + destruct (IH (togglePause s) Hwf Hidle) as (s' & ? & ? & ? & ? & ?).
      exists s'. cbn [mbind option_bind]. auto.
    + assert (Hsame : world (setStep s) = world s /\
                      out_pins (setStep s) = out_pins s /\
                      lastTime (setStep s) = lastTime s).
      { unfold setStep. destruct (paused s); auto. }
      destruct Hsame as (Hw & Hp & Ht).
      destruct (IH (setStep s)) as (s' & ? & ? & ? & Hpins & Hgen).
      * rewrite Hw. exact Hwf.
      * rewrite Hp. exact Hidle.
      * exists s'. cbn [mbind option_bind]. rewrite Hw, Hp, Ht in *. auto.
Qed.

(** X11.  From a well-formed grid and all lines off, any sequence of [loop]
    iterations and button edges runs to completion: no array is ever
    indexed out of bounds.  The grid is well formed afterwards, every pin
    has the level it had at the start, and the grid is the one obtained
    from the initial grid by as many generations as there were iterations
    that found the one-second period elapsed. *)
Theorem exec_never_fails (inputs : list input) (s : state) :
  well_formed (world s) -> idle (out_pins s) ->
  exists s',
    exec inputs s = Some s' /\
    well_formed (world s') /\
    (forall q, out_pins s' q = out_pins s q) /\
    generations (generations_due inputs (lastTime s)) (world s)
      = Some (world s').
Proof.
  intros Hwf Hidle.
  destruct (exec_run inputs s Hwf Hidle) as (s' & H1 & H2 & _ & H3 & H4).
  exists s'. auto.
Qed.

End Run.

Lemma loop_period_and_rollover_witness :
  exists s',
    @loop mega2560
      ((lastTime (State (grid_of glider) 4294967000 true false
                    (@lines_off mega2560)) + 1296) mod 2 ^ 32)
      (State (grid_of glider) 4294967000 true false (@lines_off mega2560))
      = Some s' /\
    paused s' = true /\ step s' = false /\
    well_formed (world s') /\
    (forall q, out_pins s' q = @lines_off mega2560 q) /\
    (if 1000 <=? 1296
     then updateWorld (grid_of glider) = Some (world s') /\
          lastTime s' = (4294967000 + 1296) mod 2 ^ 32
     else world s' = grid_of glider /\ lastTime s' = 4294967000).
Proof.
  apply (@loop_period_and_rollover mega2560 mega2560_pins_distinct
           (State (grid_of glider) 4294967000 true false lines_off) 1296).
  - exact glider_well_formed.
  - exact mega2560_lines_off_idle.
  - cbn [lastTime]. lia.
  - lia.
Defined.

Lemma exec_never_fails_witness :
  exists s',
    @exec mega2560 [Tick 1000; PauseEdge; Tick 1500; StepEdge; Tick 2000]
      (State (grid_of glider) 0 false false (@lines_off mega2560)) = Some s' /\
    well_formed (world s') /\
    (forall q, out_pins s' q = @lines_off mega2560 q) /\
    generations
      (generations_due [Tick 1000; PauseEdge; Tick 1500; StepEdge; Tick 2000]
         0)
      (grid_of glider) = Some (world s').
Proof.
  apply (@exec_never_fails mega2560 mega2560_pins_distinct
           [Tick 1000; PauseEdge; Tick 1500; StepEdge; Tick 2000]
           (State (grid_of glider) 0 false false lines_off)).
  - exact glider_well_formed.
  - exact mega2560_lines_off_idle.
Defined.

Section Buttons.
Context {board : Board}.

Lemma exec_flags_irrelevant (inputs : list input) (w : grid) (t : Z)
    (o : pins) (p1 st1 p2 st2 : bool) :
  (fun s' => (world s', lastTime s', out_pins s'))
    <$> exec inputs (State w t p1 st1 o) =
  (fun s' => (world s', lastTime s', out_pins s'))
    <$> exec (List.filter is_tick inputs) (State w t p2 st2 o).
Proof.
  revert w t o p1 st1 p2 st2.
  induction inputs as [|i inputs IH]; intros w t o p1 st1 p2 st2;
    [reflexivity|].
  destruct i as [time| |]; cbn [List.filter is_tick exec react].
  - rewrite (loop_flags_unused time w t p1 st1 o).
    rewrite (loop_flags_unused time w t p2 st2 o).
    destruct (loop time (State w t false false o)) as [s1|];
      [cbn [mbind option_bind]|reflexivity].
    apply IH.
  - cbn [mbind option_bind]. apply IH.
  - cbn [mbind option_bind]. unfold setStep. cbn [paused].
    destruct p1; apply IH.
Qed.

(** X12.  The two buttons have no effect on the simulation: after any
    sequence of [loop] iterations and button edges, the grid, [lastTime]
    and the pin levels are those reached by the same iterations with all
    button edges removed (and the run completes in one case exactly when it
    does in the other). *)
Theorem buttons_do_not_affect_the_grid (inputs : list input) (s : state) :
  (fun s' => (world s', lastTime s', out_pins s')) <$> exec inputs s =
  (fun s' => (world s', lastTime s', out_pins s'))
    <$> exec (List.filter is_tick inputs) s.
Proof. destruct s as [w t p st o]. apply exec_flags_irrelevant. Qed.

Lemma loop_keeps_flags (time : Z) (s s' : state) :
  loop time s = Some s' -> paused s' = paused s /\ step s' = step s.
Proof.
  destruct s as [w t p st o]. rewrite loop_flags_unused.
  destruct (loop time (State w t false false o)) as [s1|];
    [cbn|discriminate].
  intros H. inversion H. cbn. auto.
Qed.

(** X13.  After any completed sequence of [loop] iterations and button
    edges, [paused] is its initial value flipped once per edge on the pause
    line (its parity: no debouncing, no other writer), and [step], once
    true, is still true: nothing in the sketch ever clears it. *)
Theorem flags_after_run (inputs : list input) (s s' : state) :
  exec inputs s = Some s' ->
  paused s' =
    xorb (paused s) (Nat.odd (length (List.filter is_pause_edge inputs))) /\
  (step s = true -> step s' = true).
Proof.
  revert s. induction inputs as [|i inputs IH]; intros s Hrun.
  - inversion Hrun. subst s'. cbn. rewrite xorb_false_r. auto.
  - destruct i as [time| |]; cbn [exec react] in Hrun;
      cbn [List.filter is_pause_edge].
    + destruct (loop time s) as [s1|] eqn:Hloop; [cbn in Hrun|discriminate].
      destruct (loop_keeps_flags time s s1 Hloop) as [Hp Hst].
      destruct (IH s1 Hrun) as [IHp IHs]. rewrite <- Hp, <- Hst. auto.
    + cbn [mbind option_bind] in Hrun.
      destruct (IH (togglePause s) Hrun) as [IHp IHs].
      cbn [length]. rewrite Nat.odd_succ, <- Nat.negb_odd.
      split; [|exact IHs].
      rewrite IHp. cbn [togglePause paused].
      destruct (paused s), (Nat.odd _); reflexivity.
    + cbn [mbind option_bind] in Hrun.
      destruct (IH (setStep s) Hrun) as [IHp IHs].
      split.
      * rewrite IHp. unfold setStep.
        destruct (paused s) eqn:Hp; cbn [paused]; rewrite ?Hp; reflexivity.
      * intros Hst. apply IHs. unfold setStep.
        destruct (paused s); [reflexivity | exact Hst].
Qed.

End Buttons.

Lemma flags_after_run_witness :
  paused (State all_false 0 true true (@lines_off mega2560)) =
    xorb (paused (State all_false 0 false false (@lines_off mega2560)))
         (Nat.odd (length (List.filter is_pause_edge
                             [PauseEdge; StepEdge; PauseEdge; PauseEdge]))) /\
  (step (State all_false 0 false false (@lines_off mega2560)) = true ->
   step (State all_false 0 true true (@lines_off mega2560)) = true).
Proof.
  apply (@flags_after_run mega2560
           [PauseEdge; StepEdge; PauseEdge; PauseEdge]
           (State all_false 0 false false lines_off)).
  reflexivity.
Defined.

(** ** The scratch buffer *)

(** X14.  The result of [updateWorld] does not depend on what the scratch
    buffer [nextWorld] holds when the loops start: run from any well-formed
    buffer in place of the zero-initialised one, the two pairs of loops
    leave in [world] the grid [updateWorld] returns.  Every cell of the
    buffer is written before it is copied. *)
Theorem updateWorld_overwrites_whole_buffer (w next0 : grid) :
  well_formed w -> well_formed next0 ->
  (st1 ← compute_phase (Frame w next0);
   st2 ← commit_phase st1;
   Some (f_world st2)) = updateWorld w.
Proof.
  intros Hwf Hwf0.
  destruct (compute_phase_spec w next0 Hwf Hwf0)
    as ([w1 next] & Hrun1 & Hw1 & Hwfn & Hnext).
  cbn [f_world f_nextWorld] in Hw1, Hwfn, Hnext. subst w1.
  destruct (commit_phase_spec w next Hwf Hwfn)
    as ([w' next'] & Hrun2 & _ & Hwf' & Hcopy).
  cbn [f_world] in Hwf', Hcopy.
  destruct (updateWorld_spec w Hwf) as (w2 & Hw2 & Hwf2 & Hcells).
  rewrite Hrun1. cbn [mbind option_bind]. rewrite Hrun2, Hw2.
  cbn [mbind option_bind f_world]. f_equal.
  apply grid_ext; [exact Hwf' | exact Hwf2 |].
  intros r c Hr Hc. rewrite Hcopy, Hnext, Hcells by assumption. reflexivity.
Qed.

Lemma updateWorld_overwrites_whole_buffer_witness :
  (st1 ← compute_phase (Frame (grid_of glider) (grid_of block));
   st2 ← commit_phase st1;
   Some (f_world st2)) = updateWorld (grid_of glider).
Proof.
  apply (updateWorld_overwrites_whole_buffer (grid_of glider) (grid_of block)).
  - exact glider_well_formed.
  - apply well_formedb_spec. vm_compute. reflexivity.
Defined.
